(** * csv_to_json.py: a shallow embedding and its properties

    The program is one function, [main]: it checks [sys.argv], reads a CSV
    file through [csv.DictReader], and writes the rows with
    [json.dump(..., indent=4)].  The embedding follows that text line by
    line.  The parts of the Python library that [main] calls are embedded
    as far as [main] uses them:

    - [open] in text mode with universal newlines, iteration over the lines
      of the file, [write] and the closing of the [with] statement;
    - the tokenizer of the [csv] module ([Reader_iternext] and
      [parse_process_char] of [_csv.c]) in the [excel] dialect, which is
      what [csv.DictReader(csv_file)] selects;
    - [csv.DictReader] ([fieldnames], [__next__]) with its defaults
      [restkey=None], [restval=None];
    - the encoder behind [json.dump] with [indent=4]
      ([py_encode_basestring_ascii], [_iterencode_list],
      [_iterencode_dict]).

    Conventions.  A Python [str] is the list of its code points
    ([text]).  A file holds text: the bytes on disk are taken to be valid
    UTF-8 and a file is identified with the text it decodes to.  The
    tokenizer is the one of CPython 3.11 and later, where the end-of-line
    signal [EOL] is not a character of the line; its field size limit is
    the default of [csv.field_size_limit()], which the program does not
    change.

    What the file system of the model leaves out.  A path is the string
    given on the command line, and two strings lead to two files: links
    and the different spellings of one path are not modelled.  Writing to
    a file that was opened for writing succeeds: a full disk or a failing
    device is not modelled, nor is the memory of the interpreter. *)

From Stdlib Require Import ZArith Ascii String List Bool Lia.
From stdpp Require Import base option list gmap.
Import ListNotations.
Local Open Scope Z_scope.

(** ** Text *)

Abbreviation text := (list Z).

(** [str "abc"] is the Python string literal ['abc']. *)
Fixpoint str (s : string) : text :=
  match s with
  | EmptyString => []
  | String a s' => Z.of_N (N_of_ascii a) :: str s'
  end.

Definition LF : Z := 10.
Definition CR : Z := 13.
Definition COMMA : Z := 44.
Definition DQUOTE : Z := 34.
Definition BACKSLASH : Z := 92.
Definition SPACE : Z := 32.

(** ** Exceptions and results *)

Inductive exn :=
| FileNotFoundError
| PermissionError
| IsADirectoryError
| csv_Error (msg : text)
| SystemExit (code : Z).

Inductive result (A : Type) :=
| Ok (a : A)
| Raise (e : exn).
Arguments Ok {A} a.
Arguments Raise {A} e.

Definition rbind {A B} (r : result A) (k : A -> result B) : result B :=
  match r with
  | Ok a => k a
  | Raise e => Raise e
  end.

(** ** The tokenizer of the csv module, excel dialect

    [excel]: the delimiter is the comma, the quotechar the double quote,
    doublequote on, no
    escapechar, skipinitialspace off, strict off, QUOTE_MINIMAL.  The
    three states that only an escapechar enters (ESCAPED_CHAR,
    AFTER_ESCAPED_CRNL, ESCAPE_IN_QUOTED_FIELD) are left out. *)

Inductive ParserState :=
| START_RECORD
| START_FIELD
| IN_FIELD
| IN_QUOTED_FIELD
| QUOTE_IN_QUOTED_FIELD
| EAT_CRNL.

(** What [parse_process_char] is fed: a character of the line, or the
    end-of-line signal sent after the last character of each line. *)
Inductive input :=
| Chr (c : Z)
| EOL.

Record ReaderObj := {
  state : ParserState;
  fields : list text;   (* the fields of the record read so far *)
  field : text          (* the field being read *)
}.

Definition set_state (self : ReaderObj) (s : ParserState) : ReaderObj :=
  {| state := s; fields := fields self; field := field self |}.

Definition parse_reset : ReaderObj :=
  {| state := START_RECORD; fields := []; field := [] |}.

(** [field_limit] of the module state: 128 * 1024 unless
    [csv.field_size_limit] is called. *)
Definition field_limit : Z := 131072.

Definition field_limit_error : text := str "field larger than field limit (131072)".

(** [field_len] is the length of [field]. *)
Definition parse_add_char (self : ReaderObj) (c : Z) : result ReaderObj :=
  if field_limit <=? Z.of_nat (length (field self))
  then Raise (csv_Error field_limit_error)
  else Ok {| state := state self; fields := fields self; field := field self ++ [c] |}.

Definition parse_save_field (self : ReaderObj) : ReaderObj :=
  {| state := state self; fields := fields self ++ [field self]; field := [] |}.

Definition is_newline (c : Z) : bool := (c =? LF) || (c =? CR).

Definition newline_error : text :=
  str "new-line character seen in unquoted field - do you need to open the file in universal-newline mode?".

(** case START_FIELD, which case START_RECORD falls through to. *)
Definition start_field (self : ReaderObj) (c : input) : result ReaderObj :=
  match c with
  | EOL => Ok (set_state (parse_save_field self) START_RECORD)
  | Chr ch =>
      if is_newline ch then Ok (set_state (parse_save_field self) EAT_CRNL)
      else if ch =? DQUOTE then Ok (set_state self IN_QUOTED_FIELD)
      else if ch =? COMMA then Ok (parse_save_field self)
      else rbind (parse_add_char self ch) (fun self => Ok (set_state self IN_FIELD))
  end.

Definition parse_process_char (self : ReaderObj) (c : input) : result ReaderObj :=
  match state self with
  | START_RECORD =>
      match c with
      | EOL => Ok self
      | Chr ch =>
          if is_newline ch then Ok (set_state self EAT_CRNL)
          else start_field (set_state self START_FIELD) c
      end
  | START_FIELD => start_field self c
  | IN_FIELD =>
      match c with
      | EOL => Ok (set_state (parse_save_field self) START_RECORD)
      | Chr ch =>
          if is_newline ch then Ok (set_state (parse_save_field self) EAT_CRNL)
          else if ch =? COMMA then Ok (set_state (parse_save_field self) START_FIELD)
          else parse_add_char self ch
      end
  | IN_QUOTED_FIELD =>
      match c with
      | EOL => Ok self
      | Chr ch =>
          if ch =? DQUOTE then Ok (set_state self QUOTE_IN_QUOTED_FIELD)
          else parse_add_char self ch
      end
  | QUOTE_IN_QUOTED_FIELD =>
      match c with
      | EOL => Ok (set_state (parse_save_field self) START_RECORD)
      | Chr ch =>
          if ch =? DQUOTE
          then rbind (parse_add_char self ch) (fun self => Ok (set_state self IN_QUOTED_FIELD))
          else if ch =? COMMA then Ok (set_state (parse_save_field self) START_FIELD)
          else if is_newline ch then Ok (set_state (parse_save_field self) EAT_CRNL)
          else rbind (parse_add_char self ch) (fun self => Ok (set_state self IN_FIELD))
      end
  | EAT_CRNL =>
      match c with
      | EOL => Ok (set_state self START_RECORD)
      | Chr ch =>
          if is_newline ch then Ok self
          else Raise (csv_Error newline_error)
      end
  end.

(** The body of the [do ... while] of [Reader_iternext] for one line: every
    character of the line, then [EOL]. *)
Fixpoint feed_line (self : ReaderObj) (lineobj : text) : result ReaderObj :=
  match lineobj with
  | [] => parse_process_char self EOL
  | c :: rest => rbind (parse_process_char self (Chr c)) (fun self' => feed_line self' rest)
  end.

Definition is_START_RECORD (s : ParserState) : bool :=
  match s with START_RECORD => true | _ => false end.

Definition is_IN_QUOTED_FIELD (s : ParserState) : bool :=
  match s with IN_QUOTED_FIELD => true | _ => false end.

Definition nonempty {A} (l : list A) : bool :=
  match l with [] => false | _ => true end.

(** [Reader_iternext]: [self] is the tokenizer after [parse_reset] (or in
    the middle of a record), [input_iter] the lines not read yet.  The
    result is the next record with the lines left, or [None] when the
    iterator is exhausted. *)
Fixpoint Reader_iternext (self : ReaderObj) (input_iter : list text)
  : result (option (list text * list text)) :=
  match input_iter with
  | [] =>
      (* end of input *)
      if nonempty (field self) || is_IN_QUOTED_FIELD (state self)
      then Ok (Some (fields (parse_save_field self), []))
      else Ok None
  | lineobj :: rest =>
      rbind (feed_line self lineobj) (fun self' =>
        if is_START_RECORD (state self') then Ok (Some (fields self', rest))
        else Reader_iternext self' rest)
  end.

(** Every record of the reader, in order: [Reader_iternext] called until
    it is exhausted, each call after a [parse_reset].  [self] is the
    tokenizer state the current record has reached. *)
Fixpoint reader_rows (self : ReaderObj) (input_iter : list text) : result (list (list text)) :=
  match input_iter with
  | [] =>
      if nonempty (field self) || is_IN_QUOTED_FIELD (state self)
      then Ok [fields (parse_save_field self)]
      else Ok []
  | lineobj :: rest =>
      rbind (feed_line self lineobj) (fun self' =>
        if is_START_RECORD (state self')
        then rbind (reader_rows parse_reset rest) (fun rows => Ok (fields self' :: rows))
        else reader_rows self' rest)
  end.

(** ** Text files: universal newlines and iteration by line *)

(** [open(..., mode='r')] has [newline=None]: on reading, CR LF and a
    lone CR become LF. *)
Fixpoint universal_newlines (t : text) : text :=
  match t with
  | [] => []
  | c :: t' =>
      if c =? CR then
        LF :: match t' with
              | c' :: t'' => if c' =? LF then universal_newlines t'' else universal_newlines t'
              | [] => []
              end
      else c :: universal_newlines t'
  end.

(** The lines a text file iterates over: each ends with its LF, the
    last one may lack it. *)
Fixpoint text_lines (t : text) : list text :=
  match t with
  | [] => []
  | c :: t' =>
      if c =? LF then [c] :: text_lines t'
      else match text_lines t' with
           | [] => [[c]]
           | l :: ls => (c :: l) :: ls
           end
  end.

(** ** Python values: what the rows are made of and what json.dump gets *)

(** The keys of a row are column names, or [None] (the default [restkey]). *)
Inductive key :=
| KNone
| KStr (s : text).

Inductive value :=
| VNone
| VStr (s : text)
| VList (l : list value)
| VDict (d : list (key * value)).

#[global] Instance key_eq_dec : EqDecision key.
Proof. solve_decision. Defined.

(** A [dict] keeps its items in insertion order; keys are unique. *)
Abbreviation dict := (list (key * value)).

(** [d[k] = v]: a key already there keeps its place and takes the new
    value, a new key goes to the end. *)
Fixpoint dict_setitem (d : dict) (k : key) (v : value) : dict :=
  match d with
  | [] => [(k, v)]
  | (k', v') :: d' =>
      if decide (k = k') then (k', v) :: d'
      else (k', v') :: dict_setitem d' k v
  end.

Fixpoint dict_get (d : dict) (k : key) : option value :=
  match d with
  | [] => None
  | (k', v') :: d' => if decide (k = k') then Some v' else dict_get d' k
  end.

Definition dict_keys (d : dict) : list key := d.*1.

(** [dict(pairs)] *)
Definition dict_of (pairs : list (key * value)) : dict :=
  fold_left (fun d kv => dict_setitem d (fst kv) (snd kv)) pairs [].

(** ** csv.DictReader *)

Definition restkey : key := KNone.
Definition restval : value := VNone.

(** [reader] is the underlying [csv.reader], as the records it has yet to
    return ([next(self.reader)] takes the first and raises StopIteration
    on the empty list). *)
Record DictReaderObj := {
  _fieldnames : option (list text);
  reader : list (list text)
}.

(** The property [fieldnames]: the first record of the reader the first
    time it is asked for. *)
Definition fieldnames (self : DictReaderObj) : option (list text) * DictReaderObj :=
  match _fieldnames self with
  | Some names => (Some names, self)
  | None =>
      match reader self with
      | [] => (None, self)                        (* StopIteration: pass *)
      | r :: rest => (Some r, {| _fieldnames := Some r; reader := rest |})
      end
  end.

(** [row = next(self.reader); while row == []: row = next(self.reader)] *)
Fixpoint next_nonblank (rows : list (list text)) : option (list text * list (list text)) :=
  match rows with
  | [] => None
  | row :: rest =>
      match row with
      | [] => next_nonblank rest
      | _ => Some (row, rest)
      end
  end.

(** The body of [__next__] after the row is read. *)
Definition row_dict (names row : list text) : dict :=
  let d := dict_of (zip (KStr <$> names) (VStr <$> row)) in
  let lf := length names in
  let lr := length row in
  if (lf <? lr)%nat then dict_setitem d restkey (VList (VStr <$> drop lf row))
  else if (lr <? lf)%nat then
    fold_left (fun d key => dict_setitem d (KStr key) restval) (drop lr names) d
  else d.

(** [DictReader.__next__]; [None] is StopIteration.  With no field names
    the reader is exhausted, and [next(self.reader)] stops the iteration. *)
Definition DictReader_next (self : DictReaderObj) : option (dict * DictReaderObj) :=
  let '(names, self) := fieldnames self in
  match names, next_nonblank (reader self) with
  | Some names, Some (row, rest) =>
      Some (row_dict names row, {| _fieldnames := _fieldnames self; reader := rest |})
  | _, _ => None
  end.

(** [list(csv_reader)]: [__next__] until StopIteration.  Every call that
    returns a row takes at least one record from the reader, so one more
    call than there are records is enough. *)
Fixpoint list_iter (fuel : nat) (self : DictReaderObj) : list dict :=
  match fuel with
  | O => []
  | S fuel' =>
      match DictReader_next self with
      | None => []
      | Some (d, self') => d :: list_iter fuel' self'
      end
  end.

Definition list_ (self : DictReaderObj) : list dict :=
  list_iter (S (length (reader self))) self.

(** ** json: the encoder of json.dump(obj, fp, indent=4) *)

Definition hexdigit (d : Z) : Z := if d <? 10 then 48 + d else 87 + d.

(** ['{0:04x}'.format(n)] for [n < 0x10000] *)
Definition hex4 (n : Z) : text :=
  [hexdigit (Z.land (Z.shiftr n 12) 15); hexdigit (Z.land (Z.shiftr n 8) 15);
   hexdigit (Z.land (Z.shiftr n 4) 15); hexdigit (Z.land n 15)].

(** The replacement of one character by ESCAPE_ASCII.sub(replace, s). *)
Definition escape_char (c : Z) : text :=
  if c =? BACKSLASH then [BACKSLASH; BACKSLASH]
  else if c =? DQUOTE then [BACKSLASH; DQUOTE]
  else if c =? 8 then str "\b"
  else if c =? 12 then str "\f"
  else if c =? LF then str "\n"
  else if c =? CR then str "\r"
  else if c =? 9 then str "\t"
  else if (SPACE <=? c) && (c <=? 126) then [c]
  else if c <? 65536 then str "\u" ++ hex4 c
  else
    let n := c - 65536 in
    let s1 := Z.lor 55296 (Z.land (Z.shiftr n 10) 1023) in
    let s2 := Z.lor 56320 (Z.land n 1023) in
    str "\u" ++ hex4 s1 ++ str "\u" ++ hex4 s2.

Definition py_encode_basestring_ascii (s : text) : text :=
  [DQUOTE] ++ concat (map escape_char s) ++ [DQUOTE].

(** ['\n' + _indent * _current_indent_level], [_indent] being
    [' ' * indent]. *)
Definition newline_indent (indent level : nat) : text :=
  LF :: concat (replicate level (replicate indent SPACE)).

Definition item_separator : text := [COMMA].
Definition key_separator : text := str ": ".

(** A key is turned into a [str] ([None] into ['null']) and encoded as
    one. *)
Definition encode_key (k : key) : text :=
  match k with
  | KStr s => py_encode_basestring_ascii s
  | KNone => py_encode_basestring_ascii (str "null")
  end.

(** [_iterencode], with [_iterencode_list] and [_iterencode_dict] as its
    two loops: the chunks the encoder yields, in order. *)
Fixpoint _iterencode (indent : nat) (o : value) (level : nat) {struct o} : list text :=
  match o with
  | VStr s => [py_encode_basestring_ascii s]
  | VNone => [str "null"]
  | VList lst =>
      match lst with
      | [] => [str "[]"]
      | _ =>
          let nl := newline_indent indent (S level) in
          let separator := item_separator ++ nl in
          (fix loop (l : list value) (buf : text) {struct l} : list text :=
             match l with
             | [] => []
             | v :: l' =>
                 match v with
                 | VStr s => [buf ++ py_encode_basestring_ascii s]
                 | VNone => [buf ++ str "null"]
                 | _ => buf :: _iterencode indent v (S level)
                 end ++ loop l' separator
             end) lst (str "[" ++ nl)
          ++ [newline_indent indent level; str "]"]
      end
  | VDict dct =>
      match dct with
      | [] => [str "{}"]
      | _ =>
          let nl := newline_indent indent (S level) in
          let separator := item_separator ++ nl in
          [str "{"; nl] ++
          (fix loop (l : list (key * value)) (first : bool) {struct l} : list text :=
             match l with
             | [] => []
             | (k, v) :: l' =>
                 (if first then [] else [separator]) ++
                 [encode_key k; key_separator] ++
                 match v with
                 | VStr s => [py_encode_basestring_ascii s]
                 | VNone => [str "null"]
                 | _ => _iterencode indent v (S level)
                 end ++ loop l' false
             end) dct true
          ++ [newline_indent indent level; str "}"]
      end
  end.

(** [json.dumps(obj, indent=4)] is the chunks put together. *)
Definition json_text (indent : nat) (o : value) : text :=
  concat (_iterencode indent o 0).

(** ** The world: file system, file operations in order, standard output *)

Inductive mode :=
| R    (* mode='r' *)
| W.   (* mode='w' *)

(** What a path leads to.  A path with no node ([None] in the map) leads
    to nothing, in a directory that accepts a new file. *)
Inductive node :=
| Regular (readable writable : bool) (data : text)
| Directory
| NoDirectory          (* nothing, and the directory that would hold it is missing *)
| ReadOnlyDirectory.   (* nothing, and the directory that would hold it takes no new file *)

Inductive event :=
| EOpen (path : text) (m : mode)     (* a call of [open], successful or not *)
| EIter (path : text)                (* the file was iterated over to its end *)
| EWrite (path : text) (chunk : text)
| EClose (path : text).

Record world := {
  fs : gmap text node;
  events : list event;    (* oldest first *)
  stdout : list text      (* the lines printed, oldest first *)
}.

Definition log (e : event) (w : world) : world :=
  {| fs := fs w; events := events w ++ [e]; stdout := stdout w |}.

Definition set_node (p : text) (n : node) (w : world) : world :=
  {| fs := <[p := n]> (fs w); events := events w; stdout := stdout w |}.

(** Computations that read and change the world and may raise. *)
Definition M (A : Type) : Type := world -> result A * world.

Definition ret {A} (a : A) : M A := fun w => (Ok a, w).

Definition raise {A} (e : exn) : M A := fun w => (Raise e, w).

Definition bind {A B} (m : M A) (k : A -> M B) : M B :=
  fun w =>
    match m w with
    | (Ok a, w') => k a w'
    | (Raise e, w') => (Raise e, w')
    end.

Notation "x <- m ;; k" := (bind m (fun x => k))
  (at level 100, m at next level, right associativity).
Notation "m ;; k" := (bind m (fun _ => k))
  (at level 100, right associativity).

(** [try: body  except ...: handler]; [handler e] is [None] when no
    [except] clause matches [e]. *)
Definition try_except {A} (body : M A) (handler : exn -> option (M A)) : M A :=
  fun w =>
    match body w with
    | (Ok a, w') => (Ok a, w')
    | (Raise e, w') =>
        match handler e with
        | Some h => h w'
        | None => (Raise e, w')
        end
    end.

(** A file object: the path it was opened on and the mode. *)
Record file := {
  name : text;
  fmode : mode
}.

Definition open_ (p : text) (m : mode) : M file :=
  fun w =>
    let w := log (EOpen p m) w in
    let f := {| name := p; fmode := m |} in
    match m, fs w !! p with
    | _, Some Directory => (Raise IsADirectoryError, w)
    | R, Some (Regular true _ _) => (Ok f, w)
    | R, Some (Regular false _ _) => (Raise PermissionError, w)
    | R, _ => (Raise FileNotFoundError, w)
    | W, Some (Regular r true _) => (Ok f, set_node p (Regular r true []) w)
    | W, Some (Regular _ false _) => (Raise PermissionError, w)
    | W, Some NoDirectory => (Raise FileNotFoundError, w)
    | W, Some ReadOnlyDirectory => (Raise PermissionError, w)
    | W, None => (Ok f, set_node p (Regular true true []) w)
    end.

Definition close (f : file) : M unit :=
  fun w => (Ok tt, log (EClose (name f)) w).

(** [with open(p, mode=m) as f: body]: the file is closed when the body
    returns and when it raises. *)
Definition with_open {A} (p : text) (m : mode) (body : file -> M A) : M A :=
  f <- open_ p m ;;
  fun w =>
    let '(r, w') := body f w in
    let '(_, w'') := close f w' in
    (r, w'').

(** The lines the file object iterates over. *)
Definition lines_of (f : file) (w : world) : list text :=
  let data := match fs w !! name f with
              | Some (Regular _ _ data) => data
              | _ => []
              end in
  text_lines (universal_newlines data).

(** [fp.write(chunk)] *)
Definition write (f : file) (chunk : text) : M unit :=
  fun w =>
    let w := log (EWrite (name f) chunk) w in
    match fs w !! name f with
    | Some (Regular r wr data) => (Ok tt, set_node (name f) (Regular r wr (data ++ chunk)) w)
    | _ => (Ok tt, w)
    end.

Definition print (line : text) : M unit :=
  fun w => (Ok tt, {| fs := fs w; events := events w; stdout := stdout w ++ [line] |}).

Definition sys_exit {A} (code : Z) : M A := raise (SystemExit code).

(** [csv.DictReader(csv_file)].  The reader is lazy in Python: the file is
    read and tokenized while [list(csv_reader)] runs, the statement that
    follows in the same [with] block; here both happen on construction.
    When the tokenizer raises, the iteration over the file stops there:
    the file was not iterated over to its end. *)
Definition DictReader (csv_file : file) : M DictReaderObj :=
  fun w =>
    match reader_rows parse_reset (lines_of csv_file w) with
    | Ok rows => (Ok {| _fieldnames := None; reader := rows |}, log (EIter (name csv_file)) w)
    | Raise e => (Raise e, w)
    end.

(** [json.dump(obj, fp, indent=indent)]: [for chunk in iterable:
    fp.write(chunk)]. *)
Fixpoint write_chunks (fp : file) (chunks : list text) : M unit :=
  match chunks with
  | [] => ret tt
  | chunk :: rest => write fp chunk ;; write_chunks fp rest
  end.

Definition json_dump (obj : value) (fp : file) (indent : nat) : M unit :=
  write_chunks fp (_iterencode indent obj 0).

(** ** main *)

Definition usage : text := str "Usage: python csv_to_json.py <input_csv> <output_json>".

Definition msg_success (input_csv output_json : text) : text :=
  str "Successfully converted " ++ input_csv ++ str " to " ++ output_json.

Definition msg_not_found (input_csv : text) : text :=
  str "Error: The file " ++ input_csv ++ str " was not found.".

Definition msg_permission (input_csv output_json : text) : text :=
  str "Error: Permission denied when accessing " ++ input_csv ++ str " or " ++
  output_json ++ str ".".

Definition main (argv : list text) : M unit :=
  if negb (length argv =? 3)%nat then
    print usage ;;
    sys_exit 1
  else
    let input_csv := nth 1 argv [] in
    let output_json := nth 2 argv [] in
    try_except
      (data <- with_open input_csv R (fun csv_file =>
                 csv_reader <- DictReader csv_file ;;
                 ret (list_ csv_reader)) ;;
       with_open output_json W (fun json_file =>
         json_dump (VList (VDict <$> data)) json_file 4) ;;
       print (msg_success input_csv output_json))
      (fun e =>
         match e with
         | FileNotFoundError => Some (print (msg_not_found input_csv) ;; sys_exit 1)
         | PermissionError => Some (print (msg_permission input_csv output_json) ;; sys_exit 1)
         | _ => None
         end).

(** How the process ends: [main] returns (status 0), [sys.exit(code)], or
    an exception nobody caught (traceback on stderr, status 1). *)
Inductive outcome :=
| Exit (status : Z)
| Traceback (e : exn).

Definition exit_status (o : outcome) : Z :=
  match o with
  | Exit status => status
  | Traceback _ => 1
  end.

(** [if __name__ == "__main__": main()] *)
Definition run (argv : list text) (w : world) : outcome * world :=
  match main argv w with
  | (Ok _, w') => (Exit 0, w')
  | (Raise (SystemExit code), w') => (Exit code, w')
  | (Raise e, w') => (Traceback e, w')
  end.

(** ** Well-formed CSV text (RFC 4180), for the statements below

    A cell is written bare or between double quotes; a bare cell holds no
    comma, double quote or line break, a quoted one may hold anything, its
    double quotes written twice. *)

Record cell := {
  quoted : bool;
  content : text
}.

Definition plain (c : Z) : Prop := c <> COMMA /\ c <> DQUOTE /\ c <> LF /\ c <> CR.

Definition cell_ok (c : cell) : Prop :=
  quoted c = true \/ Forall plain (content c).

Definition escape_quotes (v : text) : text :=
  flat_map (fun c => if c =? DQUOTE then [DQUOTE; DQUOTE] else [c]) v.

Definition render_cell (c : cell) : text :=
  if quoted c then [DQUOTE] ++ escape_quotes (content c) ++ [DQUOTE]
  else content c.

Fixpoint render_record (cells : list cell) : text :=
  match cells with
  | [] => []
  | c :: cs =>
      match cs with
      | [] => render_cell c
      | _ => render_cell c ++ [COMMA] ++ render_record cs
      end
  end.

(** The records one per line, each line ended by [eol]; the last line has
    its [eol] when [final] is set. *)
Fixpoint render_csv (eol : text) (final : bool) (records : list (list cell)) : text :=
  match records with
  | [] => []
  | r :: rs =>
      match rs with
      | [] => render_record r ++ (if final then eol else [])
      | _ => render_record r ++ eol ++ render_csv eol final rs
      end
  end.

(** A record as RFC 4180 allows it: cells that are written as they may
    be, and a line that is not blank. *)
Definition record_ok (cells : list cell) : Prop :=
  Forall cell_ok cells /\ render_record cells <> [].

Definition contents (cells : list cell) : list text := map content cells.

Definition no_CR (v : text) : Prop := Forall (fun c => c <> CR) v.

(** ** The tokenizer without its field limit, for the proofs

    What the tokenizer does as long as no field reaches the limit: the
    same transitions, [parse_add_char] without its test.  The properties
    of the tokenizer are proved on these functions first, and carried over
    to [parse_process_char] and [reader_rows] by the lemmas on the field
    limit. *)

Definition parse_add_char_nolimit (self : ReaderObj) (c : Z) : ReaderObj :=
  {| state := state self; fields := fields self; field := field self ++ [c] |}.

Definition start_field_nolimit (self : ReaderObj) (c : input) : ReaderObj :=
  match c with
  | EOL => set_state (parse_save_field self) START_RECORD
  | Chr ch =>
      if is_newline ch then set_state (parse_save_field self) EAT_CRNL
      else if ch =? DQUOTE then set_state self IN_QUOTED_FIELD
      else if ch =? COMMA then parse_save_field self
      else set_state (parse_add_char_nolimit self ch) IN_FIELD
  end.

Definition parse_process_char_nolimit (self : ReaderObj) (c : input) : result ReaderObj :=
  match state self with
  | START_RECORD =>
      match c with
      | EOL => Ok self
      | Chr ch =>
          if is_newline ch then Ok (set_state self EAT_CRNL)
          else Ok (start_field_nolimit (set_state self START_FIELD) c)
      end
  | START_FIELD => Ok (start_field_nolimit self c)
  | IN_FIELD =>
      match c with
      | EOL => Ok (set_state (parse_save_field self) START_RECORD)
      | Chr ch =>
          if is_newline ch then Ok (set_state (parse_save_field self) EAT_CRNL)
          else if ch =? COMMA then Ok (set_state (parse_save_field self) START_FIELD)
          else Ok (parse_add_char_nolimit self ch)
      end
  | IN_QUOTED_FIELD =>
      match c with
      | EOL => Ok self
      | Chr ch =>
          if ch =? DQUOTE then Ok (set_state self QUOTE_IN_QUOTED_FIELD)
          else Ok (parse_add_char_nolimit self ch)
      end
  | QUOTE_IN_QUOTED_FIELD =>
      match c with
      | EOL => Ok (set_state (parse_save_field self) START_RECORD)
      | Chr ch =>
          if ch =? DQUOTE then Ok (set_state (parse_add_char_nolimit self ch) IN_QUOTED_FIELD)
          else if ch =? COMMA then Ok (set_state (parse_save_field self) START_FIELD)
          else if is_newline ch then Ok (set_state (parse_save_field self) EAT_CRNL)
          else Ok (set_state (parse_add_char_nolimit self ch) IN_FIELD)
      end
  | EAT_CRNL =>
      match c with
      | EOL => Ok (set_state self START_RECORD)
      | Chr ch =>
          if is_newline ch then Ok self
          else Raise (csv_Error newline_error)
      end
  end.

Fixpoint feed_line_nolimit (self : ReaderObj) (lineobj : text) : result ReaderObj :=
  match lineobj with
  | [] => parse_process_char_nolimit self EOL
  | c :: rest =>
      rbind (parse_process_char_nolimit self (Chr c)) (fun self' => feed_line_nolimit self' rest)
  end.

Fixpoint reader_rows_nolimit (self : ReaderObj) (input_iter : list text)
  : result (list (list text)) :=
  match input_iter with
  | [] =>
      if nonempty (field self) || is_IN_QUOTED_FIELD (state self)
      then Ok [fields (parse_save_field self)]
      else Ok []
  | lineobj :: rest =>
      rbind (feed_line_nolimit self lineobj) (fun self' =>
        if is_START_RECORD (state self')
        then rbind (reader_rows_nolimit parse_reset rest) (fun rows => Ok (fields self' :: rows))
        else reader_rows_nolimit self' rest)
  end.

(** A field the tokenizer takes, and one it refuses. *)
Definition within_limit (f : text) : Prop := Z.of_nat (length f) <= field_limit.

Definition over_limit (f : text) : Prop := field_limit < Z.of_nat (length f).

(** Every field the tokenizer holds is within the limit. *)
Definition all_within_limit (self : ReaderObj) : Prop :=
  within_limit (field self) /\ Forall within_limit (fields self).

(** Every field the tokenizer holds has [n] characters at most. *)
Definition all_at_most (n : nat) (self : ReaderObj) : Prop :=
  (length (field self) <= n)%nat /\ Forall (fun f => (length f <= n)%nat) (fields self).

(** The tokenizer holds a field over the limit. *)
Definition holds_over_limit (self : ReaderObj) : Prop :=
  over_limit (field self) \/ Exists over_limit (fields self).

(** Between two records, and while line breaks are skipped, no field is
    being read. *)
Definition idle_empty (self : ReaderObj) : Prop :=
  state self = START_RECORD \/ state self = EAT_CRNL -> field self = [].

(** ** The same tokenizer, on the text of the file

    [reader_text self pending t] reads the text [t] character by
    character; [pending] says that the current line has characters
    already.  It sends [EOL] after each LF and at the end of a last line
    without LF, as the iteration by lines does.  Like the functions above,
    it leaves the field limit out. *)

Definition at_eof (self : ReaderObj) : result (list (list text)) :=
  if nonempty (field self) || is_IN_QUOTED_FIELD (state self)
  then Ok [fields (parse_save_field self)]
  else Ok [].

Definition end_of_line (self : ReaderObj) (k : ReaderObj -> result (list (list text)))
  : result (list (list text)) :=
  rbind (parse_process_char_nolimit self EOL) (fun self' =>
    if is_START_RECORD (state self')
    then rbind (k parse_reset) (fun rows => Ok (fields self' :: rows))
    else k self').

Fixpoint reader_text (self : ReaderObj) (pending : bool) (t : text) : result (list (list text)) :=
  match t with
  | [] => if pending then end_of_line self at_eof else at_eof self
  | c :: t' =>
      rbind (parse_process_char_nolimit self (Chr c)) (fun self' =>
        if c =? LF then end_of_line self' (fun s => reader_text s false t')
        else reader_text self' true t')
  end.

(** The state of the tokenizer when a cell has been read to its end. *)
Definition cell_done (self : ReaderObj) : Prop :=
  state self = IN_FIELD \/ state self = QUOTE_IN_QUOTED_FIELD \/
  (state self = START_FIELD /\ field self = []).

(** The line endings a text file is read with: LF, CR LF, or CR. *)
Definition is_eol (eol : text) : Prop :=
  eol = [LF] \/ eol = [CR; LF] \/ eol = [CR].

(** A cell as the program sees it: the file is opened with universal
    newlines, so a line break inside a quoted cell arrives as LF. *)
Definition normalize_cell (c : cell) : cell :=
  {| quoted := quoted c; content := universal_newlines (content c) |}.

(** The items of the row of a record that is no longer than the header:
    the cells under their column names, [None] under the columns that are
    left. *)
Definition row_pairs (names row : list text) : list (key * value) :=
  zip (KStr <$> names)
      ((VStr <$> row) ++ replicate (length names - length row)%nat VNone).

(** The cells of a record as the program reads them. *)
Definition cells_read (cells : list cell) : list text :=
  contents (map normalize_cell cells).

(** The object with the members [names[j]: row[j]], in this order. *)
Definition object_of (names row : list text) : value :=
  VDict (zip (KStr <$> names) (VStr <$> row)).

(** What [list(csv_reader)] amounts to: the first record names the
    columns, every later record that is not blank gives a row. *)
Definition rows_of (records : list (list text)) : list dict :=
  match records with
  | [] => []
  | names :: rest => map (row_dict names) (List.filter nonempty rest)
  end.

(** A file of one line at most, with or without its line ending. *)
Definition single_line (data : text) : Prop :=
  exists l nl, data = l ++ nl /\ Forall (fun c => c <> LF /\ c <> CR) l /\
               (nl = [] \/ is_eol nl).

(** [open(p, mode='w')] succeeds at [p]: nothing there yet (the new file
    is the user's, [r] is [true]), or a writable file there ([r] tells
    whether it is readable). *)
Definition writable_at (w : world) (p : text) (r : bool) : Prop :=
  (fs w !! p = None /\ r = true) \/ exists d, fs w !! p = Some (Regular r true d).

(** No file at [p]. *)
Definition absent (w : world) (p : text) : Prop :=
  fs w !! p = None \/ fs w !! p = Some NoDirectory \/ fs w !! p = Some ReadOnlyDirectory.

(** The file operations of a run that converts [input_csv] into
    [output_json], writing [chunks]. *)
Definition conversion_events (input_csv output_json : text) (chunks : list text) : list event :=
  [EOpen input_csv R; EIter input_csv; EClose input_csv; EOpen output_json W] ++
  map (EWrite output_json) chunks ++ [EClose output_json].

(** What a run that converts leaves behind: the input was a readable file
    whose text [data] the reader turned into [rows]; the file operations
    are the opening, reading and closing of the input, then the opening,
    writing and closing of the output; the output holds the JSON text of
    the rows. *)
Definition converted (argv : list text) (w w' : world) : Prop :=
  exists prog input_csv output_json wi r data rows,
    argv = [prog; input_csv; output_json] /\
    fs w !! input_csv = Some (Regular true wi data) /\
    reader_rows parse_reset (text_lines (universal_newlines data)) = Ok rows /\
    events w' = events w ++
                conversion_events input_csv output_json
                  (_iterencode 4 (VList (VDict <$> rows_of rows)) 0) /\
    fs w' = <[output_json := Regular r true (json_text 4 (VList (VDict <$> rows_of rows)))]>
              (fs w).

(** The failures the program reports with a line of its own.  The output
    is opened only when the input has been read: [OutputDenied] has the
    reader return the records of the input. *)
Inductive failure :=
| InputNotFound
| InputDenied
| OutputDenied.

Definition fails (w : world) (input_csv output_json : text) (f : failure) : Prop :=
  match f with
  | InputNotFound => absent w input_csv
  | InputDenied => exists wi data, fs w !! input_csv = Some (Regular false wi data)
  | OutputDenied =>
      (exists wi data rows,
         fs w !! input_csv = Some (Regular true wi data) /\
         reader_rows parse_reset (text_lines (universal_newlines data)) = Ok rows) /\
      (fs w !! output_json = Some ReadOnlyDirectory \/
       exists ro data, fs w !! output_json = Some (Regular ro false data))
  end.

Definition error_line (f : failure) (input_csv output_json : text) : text :=
  match f with
  | InputNotFound => msg_not_found input_csv
  | InputDenied | OutputDenied => msg_permission input_csv output_json
  end.

(** ** Worlds for the examples *)

Definition world_of (files : list (text * node)) : world :=
  {| fs := list_to_map files; events := []; stdout := [] |}.

(** [txt] is [str] with the apostrophe standing for the double quote. *)
Fixpoint txt (s : string) : text :=
  match s with
  | EmptyString => []
  | String a s' =>
      let c := Z.of_N (N_of_ascii a) in
      (if c =? 39 then DQUOTE else c) :: txt s'
  end.

(** Lines, each ended by LF. *)
Definition lines_text (lines : list text) : text :=
  concat (map (fun l => l ++ [LF]) lines).

(** Lines with LF between them. *)
Fixpoint join_lines (lines : list text) : text :=
  match lines with
  | [] => []
  | l :: ls =>
      match ls with
      | [] => l
      | _ => l ++ [LF] ++ join_lines ls
      end
  end.

Definition argv0 : list text := [str "csv_to_json.py"; str "in.csv"; str "out.json"].

(** The concrete scenario of the specification. *)
Definition scenario_csv : text :=
  lines_text [str "name,age"; str "Alice,30"; str "Bob,25"].

Definition scenario_world : world :=
  world_of [(str "in.csv", Regular true true scenario_csv)].

(** The output as the specification displays it. *)
Definition displayed_json : text :=
  join_lines
    [txt "[";
     txt "    {'name': 'Alice', 'age': '30'},";
     txt "    {'name': 'Bob', 'age': '25'}";
     txt "]"].

(** The output as [json.dump(data, json_file, indent=4)] writes it. *)
Definition written_json : text :=
  join_lines
    [txt "[";
     txt "    {";
     txt "        'name': 'Alice',";
     txt "        'age': '30'";
     txt "    },";
     txt "    {";
     txt "        'name': 'Bob',";
     txt "        'age': '25'";
     txt "    }";
     txt "]"].

(** A header that names two columns alike. *)
Definition twice_csv : text := lines_text [str "a,a"; str "1,2"].

Definition twice_world : world :=
  world_of [(str "in.csv", Regular true true twice_csv)].

(** A row with more cells than the header has columns. *)
Definition long_row_csv : text := lines_text [str "a"; str "1,2"].

Definition long_row_world : world :=
  world_of [(str "in.csv", Regular true true long_row_csv)].

(** A quoted field that is never closed. *)
Definition unterminated_csv : text := lines_text [str "a"; txt "'b"].

Definition unterminated_world : world :=
  world_of [(str "in.csv", Regular true true unterminated_csv)].

(** The input cannot be read; the output could be written. *)
Definition unreadable_input_world : world :=
  world_of [(str "in.csv", Regular false true scenario_csv)].

(** The input can be read; the output is there and cannot be written. *)
Definition unwritable_output_world : world :=
  world_of [(str "in.csv", Regular true true scenario_csv);
            (str "out.json", Regular true false [])].

(** The input can be read; the directory of the output is missing. *)
Definition missing_directory_world : world :=
  world_of [(str "in.csv", Regular true true scenario_csv);
            (str "out.json", NoDirectory)].

(** The input can be read; the output path leads to a directory. *)
Definition directory_output_world : world :=
  world_of [(str "in.csv", Regular true true scenario_csv);
            (str "out.json", Directory)].

(** A header and nothing else. *)
Definition header_only_csv : text := lines_text [str "name,age"].

Definition header_only_world : world :=
  world_of [(str "in.csv", Regular true true header_only_csv)].

(** What the program writes for [unterminated_csv]. *)
Definition unterminated_json : text :=
  join_lines
    [txt "[";
     txt "    {";
     txt "        'a': 'b\n'";
     txt "    }";
     txt "]"].

(** A record with a quoted cell that holds a comma, one that holds a
    double quote, and one that holds a line break. *)
Definition quoted_record : list cell :=
  [ {| quoted := true; content := str "a,b" |};
    {| quoted := true; content := txt "say 'hi'" |};
    {| quoted := true; content := str "two" ++ [LF] ++ str "lines" |};
    {| quoted := false; content := str "c" |} ].

(** The scenario of the specification, cell by cell. *)
Definition scenario_header : list cell :=
  [ {| quoted := false; content := str "name" |};
    {| quoted := false; content := str "age" |} ].

Definition scenario_records : list (list cell) :=
  [ [ {| quoted := false; content := str "Alice" |};
      {| quoted := false; content := str "30" |} ];
    [ {| quoted := false; content := str "Bob" |};
      {| quoted := false; content := str "25" |} ] ].

(** One character more than the field limit allows. *)
Definition over_limit_text : text := replicate (S (Z.to_nat field_limit)) 98.

(** A quoted cell that holds a comma and is longer than the field limit. *)
Definition long_quoted_cell : cell :=
  {| quoted := true; content := str "a," ++ over_limit_text |}.

(** A header line and nothing else, its one column name longer than the
    field limit. *)
Definition long_header_cell : cell := {| quoted := false; content := over_limit_text |}.

Definition long_header_csv : text := render_csv [LF] true [[long_header_cell]].

Definition long_header_world : world :=
  world_of [(str "in.csv", Regular true true long_header_csv)].

(** The text of the output file after a run. *)
Definition output_of (argv : list text) (w : world) : option text :=
  match fs (snd (run argv w)) !! nth 2 argv [] with
  | Some (Regular _ _ data) => Some data
  | _ => None
  end.

(** ** How a run ends, case by case *)

(** The world after the file operations [ops] and the lines [printed],
    with the file system as it was. *)
Definition after_ops (w : world) (ops : list event) (printed : list text) : world :=
  {| fs := fs w; events := events w ++ ops; stdout := stdout w ++ printed |}.

(** The file operations up to the failed [open] of the output. *)
Definition read_then_open (input_csv output_json : text) : list event :=
  [EOpen input_csv R; EIter input_csv; EClose input_csv; EOpen output_json W].

(** The ways a run with two arguments ends, by what the two paths lead
    to. *)
Inductive ending (input_csv output_json : text) (w : world) : outcome -> world -> Prop :=
| end_input_not_found :
    absent w input_csv ->
    ending input_csv output_json w (Exit 1)
      (after_ops w [EOpen input_csv R] [msg_not_found input_csv])
| end_input_denied wi data :
    fs w !! input_csv = Some (Regular false wi data) ->
    ending input_csv output_json w (Exit 1)
      (after_ops w [EOpen input_csv R] [msg_permission input_csv output_json])
| end_input_directory :
    fs w !! input_csv = Some Directory ->
    ending input_csv output_json w (Traceback IsADirectoryError)
      (after_ops w [EOpen input_csv R] [])
| end_reader_error wi data msg :
    fs w !! input_csv = Some (Regular true wi data) ->
    reader_rows parse_reset (text_lines (universal_newlines data)) = Raise (csv_Error msg) ->
    ending input_csv output_json w (Traceback (csv_Error msg))
      (after_ops w [EOpen input_csv R; EClose input_csv] [])
| end_output_not_found wi data rows :
    fs w !! input_csv = Some (Regular true wi data) ->
    reader_rows parse_reset (text_lines (universal_newlines data)) = Ok rows ->
    fs w !! output_json = Some NoDirectory ->
    ending input_csv output_json w (Exit 1)
      (after_ops w (read_then_open input_csv output_json) [msg_not_found input_csv])
| end_output_denied wi data rows :
    fs w !! input_csv = Some (Regular true wi data) ->
    reader_rows parse_reset (text_lines (universal_newlines data)) = Ok rows ->
    (fs w !! output_json = Some ReadOnlyDirectory \/
     exists ro d, fs w !! output_json = Some (Regular ro false d)) ->
    ending input_csv output_json w (Exit 1)
      (after_ops w (read_then_open input_csv output_json)
         [msg_permission input_csv output_json])
| end_output_directory wi data rows :
    fs w !! input_csv = Some (Regular true wi data) ->
    reader_rows parse_reset (text_lines (universal_newlines data)) = Ok rows ->
    fs w !! output_json = Some Directory ->
    ending input_csv output_json w (Traceback IsADirectoryError)
      (after_ops w (read_then_open input_csv output_json) [])
| end_converted wi r data rows :
    fs w !! input_csv = Some (Regular true wi data) ->
    reader_rows parse_reset (text_lines (universal_newlines data)) = Ok rows ->
    writable_at w output_json r ->
    ending input_csv output_json w (Exit 0)
      {| fs := <[output_json :=
                   Regular r true (json_text 4 (VList (VDict <$> rows_of rows)))]> (fs w);
         events := events w ++
                   conversion_events input_csv output_json
                     (_iterencode 4 (VList (VDict <$> rows_of rows)) 0);
         stdout := stdout w ++ [msg_success input_csv output_json] |}.

(** ** For the further properties *)

(** The characters [json.dump] writes with its default [ensure_ascii]:
    printable ASCII, and LF for the layout. *)
Definition json_char (c : Z) : Prop := c = LF \/ 32 <= c <= 126.

(** Induction over values, the values inside lists and dicts included. *)
Definition value_induction (P : value -> Prop)
    (HNone : P VNone) (HStr : forall s, P (VStr s))
    (HList : forall l, Forall P l -> P (VList l))
    (HDict : forall d, Forall (fun kv => P (snd kv)) d -> P (VDict d)) : forall v, P v :=
  fix F (v : value) : P v :=
    match v with
    | VNone => HNone
    | VStr s => HStr s
    | VList l =>
        HList l ((fix G (l : list value) : Forall P l :=
                    match l with
                    | [] => List.Forall_nil P
                    | x :: l' => @List.Forall_cons _ P x l' (F x) (G l')
                    end) l)
    | VDict d =>
        HDict d ((fix G (d : list (key * value)) : Forall (fun kv => P (snd kv)) d :=
                    match d with
                    | [] => List.Forall_nil _
                    | kv :: d' => @List.Forall_cons _ _ kv d' (F (snd kv)) (G d')
                    end) d)
    end.

(** [line.split(',')], the field [f] being begun already. *)
Fixpoint split_commas_from (f : text) (l : text) : list text :=
  match l with
  | [] => [f]
  | c :: l' =>
      if c =? COMMA then f :: split_commas_from [] l'
      else split_commas_from (f ++ [c]) l'
  end.

Definition split_commas (l : text) : list text := split_commas_from [] l.

(** No field of [l] starts with a double quote; [at_start] tells whether
    [l] starts a field. *)
Fixpoint no_opening_quote (at_start : bool) (l : text) : Prop :=
  match l with
  | [] => True
  | c :: l' => (at_start = true -> c <> DQUOTE) /\ no_opening_quote (c =? COMMA) l'
  end.

(** A line without the LF that ends it. *)
Fixpoint chomp (line : text) : text :=
  match line with
  | [] => []
  | c :: rest =>
      match rest with
      | [] => if c =? LF then [] else [c]
      | _ => c :: chomp rest
      end
  end.

(** The record of a line with no quoted field: nothing for a blank line,
    the line split at its commas otherwise. *)
Definition line_fields (line : text) : list text :=
  match chomp line with
  | [] => []
  | l => split_commas l
  end.

(** A file whose second line has double quotes inside a field. *)
Definition inner_quotes_csv : text := lines_text [str "a,b"; txt "x'y'z,2"; str ""; str ",,"].

(** * Properties *)

(** ** The tokenizer

    The lemmas of this part are about the tokenizer without its field
    limit, but for [reader_rows_iternext] and [reader_rows_count]; the
    part on the field limit carries them over to [reader_rows]. *)

Lemma rbind_assoc {A B C} (r : result A) (f : A -> result B) (g : B -> result C) :
  rbind (rbind r f) g = rbind r (fun a => rbind (f a) g).
Proof. destruct r; reflexivity. Qed.

Lemma rbind_ext {A B} (r : result A) (f g : A -> result B) :
  (forall a, f a = g a) -> rbind r f = rbind r g.
Proof. intros H. destruct r; cbn; [apply H | reflexivity]. Qed.

(** [reader_rows] is [Reader_iternext] called again and again. *)
Lemma reader_rows_iternext (input_iter : list text) (self : ReaderObj) :
  reader_rows self input_iter =
  rbind (Reader_iternext self input_iter) (fun r =>
    match r with
    | None => Ok []
    | Some (row, rest) => rbind (reader_rows parse_reset rest) (fun rows => Ok (row :: rows))
    end).
Proof.
  revert self. induction input_iter as [|l ls IH]; intros self; cbn.
  - destruct (nonempty (field self) || is_IN_QUOTED_FIELD (state self)); reflexivity.
  - rewrite rbind_assoc. apply rbind_ext. intros self'.
    destruct (is_START_RECORD (state self')); [reflexivity | apply IH].
Qed.

Lemma text_lines_cons_nonempty (c : Z) (t : text) : text_lines (c :: t) <> [].
Proof. cbn. destruct (c =? LF); [discriminate|]. destruct (text_lines t); discriminate. Qed.

Lemma reader_text_pending (self : ReaderObj) (b : bool) (t : text) :
  t <> [] -> reader_text self b t = reader_text self false t.
Proof. destruct t; [congruence | reflexivity]. Qed.

Lemma reader_text_cons (self : ReaderObj) (b : bool) (c : Z) (t : text) :
  reader_text self b (c :: t) =
  rbind (parse_process_char_nolimit self (Chr c)) (fun self' =>
    if c =? LF then end_of_line self' (fun s => reader_text s false t)
    else reader_text self' true t).
Proof. reflexivity. Qed.

Lemma text_lines_cons (c : Z) (t : text) :
  text_lines (c :: t) =
  if c =? LF then [c] :: text_lines t
  else match text_lines t with
       | [] => [[c]]
       | l :: ls => (c :: l) :: ls
       end.
Proof. reflexivity. Qed.

(** Reading the lines of a text is reading the text. *)
Lemma reader_rows_text (t : text) (self : ReaderObj) :
  reader_rows_nolimit self (text_lines t) = reader_text self false t.
Proof.
  revert self. induction t as [|c t IH]; intros self.
  - reflexivity.
  - rewrite reader_text_cons, text_lines_cons. destruct (c =? LF) eqn:Hc.
    + cbn [reader_rows_nolimit feed_line_nolimit]. rewrite rbind_assoc. apply rbind_ext. intros s1.
      unfold end_of_line. apply rbind_ext. intros s2.
      destruct (is_START_RECORD (state s2)); rewrite IH; reflexivity.
    + destruct t as [|c2 t2].
      * cbn. rewrite rbind_assoc. apply rbind_ext. intros s1.
        unfold end_of_line. apply rbind_ext. intros s2.
        destruct (is_START_RECORD (state s2)); reflexivity.
      * destruct (text_lines (c2 :: t2)) as [|l ls] eqn:Hs.
        { exfalso. eapply text_lines_cons_nonempty; eassumption. }
        cbn [reader_rows_nolimit feed_line_nolimit]. rewrite rbind_assoc. apply rbind_ext. intros s1.
        rewrite (reader_text_pending _ true) by discriminate.
        rewrite <- IH. reflexivity.
Qed.

(** *** Reading a well-formed record *)

Lemma plain_tests (c : Z) :
  plain c ->
  is_newline c = false /\ (c =? COMMA) = false /\ (c =? DQUOTE) = false /\ (c =? LF) = false.
Proof.
  unfold plain, is_newline, COMMA, DQUOTE, LF, CR. intros (H1 & H2 & H3 & H4).
  repeat split; lia.
Qed.

(** A bare cell, once its first character is read. *)
Lemma read_plain (v : text) :
  Forall plain v -> forall fs f rest,
  reader_text {| state := IN_FIELD; fields := fs; field := f |} true (v ++ rest) =
  reader_text {| state := IN_FIELD; fields := fs; field := f ++ v |} true rest.
Proof.
  induction 1 as [|c v Hc Hv IH]; intros fs f rest.
  - rewrite app_nil_r. reflexivity.
  - destruct (plain_tests c Hc) as (Hn & Hcomma & _ & Hlf).
    cbn [app]. rewrite reader_text_cons. unfold parse_process_char_nolimit. cbn [state].
    rewrite Hn, Hcomma, Hlf. cbn [rbind]. unfold parse_add_char_nolimit. cbn [state fields field].
    rewrite IH. rewrite <- app_assoc. reflexivity.
Qed.

Lemma escape_quotes_cons (c : Z) (v : text) :
  escape_quotes (c :: v) = (if c =? DQUOTE then [DQUOTE; DQUOTE] else [c]) ++ escape_quotes v.
Proof. reflexivity. Qed.

(** The inside of a quoted cell, up to and with the closing quote. *)
Lemma read_quoted (v : text) :
  forall fs f b rest,
  reader_text {| state := IN_QUOTED_FIELD; fields := fs; field := f |} b
              (escape_quotes v ++ DQUOTE :: rest) =
  reader_text {| state := QUOTE_IN_QUOTED_FIELD; fields := fs; field := f ++ v |} true rest.
Proof.
  induction v as [|c v IH]; intros fs f b rest.
  - rewrite app_nil_r. reflexivity.
  - unfold escape_quotes. cbn [flat_map]. fold (escape_quotes v).
    destruct (c =? DQUOTE) eqn:Hq.
    + apply Z.eqb_eq in Hq. subst c. cbn [app].
      rewrite reader_text_cons. unfold parse_process_char_nolimit. cbn [state].
      rewrite Z.eqb_refl. cbn [rbind]. change (DQUOTE =? LF) with false. cbv iota.
      rewrite reader_text_cons. unfold parse_process_char_nolimit, set_state. cbn [state].
      rewrite Z.eqb_refl. cbn [rbind]. change (DQUOTE =? LF) with false. cbv iota.
      unfold parse_add_char_nolimit, set_state. cbn [state fields field].
      rewrite IH. rewrite <- app_assoc. reflexivity.
    + cbn [app]. rewrite reader_text_cons. unfold parse_process_char_nolimit. cbn [state].
      rewrite Hq. cbn [rbind]. unfold parse_add_char_nolimit. cbn [state fields field].
      destruct (c =? LF) eqn:Hlf.
      * unfold end_of_line, parse_process_char_nolimit. cbn [state rbind is_START_RECORD].
        rewrite IH. rewrite <- app_assoc. reflexivity.
      * rewrite IH. rewrite <- app_assoc. reflexivity.
Qed.

Lemma read_cell (c : cell) (fs : list text) (b : bool) :
  cell_ok c ->
  exists self' b',
    cell_done self' /\ fields self' = fs /\ field self' = content c /\
    (b' = true \/ (b' = b /\ render_cell c = [])) /\
    forall rest,
      reader_text {| state := START_FIELD; fields := fs; field := [] |} b (render_cell c ++ rest) =
      reader_text self' b' rest.
Proof.
  intros Hok. unfold render_cell. destruct c as [q v]. cbn [quoted content] in *.
  destruct q.
  - exists {| state := QUOTE_IN_QUOTED_FIELD; fields := fs; field := v |}, true.
    split_and!; [right; left; reflexivity | reflexivity | reflexivity | left; reflexivity |].
    intros rest. cbn [app]. rewrite reader_text_cons.
    unfold parse_process_char_nolimit, start_field_nolimit. cbn [state].
    change (is_newline DQUOTE) with false. rewrite Z.eqb_refl. cbn [rbind].
    change (DQUOTE =? LF) with false. cbv iota. unfold set_state. cbn [fields field].
    rewrite <- app_assoc. cbn [app]. rewrite read_quoted. reflexivity.
  - destruct Hok as [Hq | Hplain]; [discriminate|]. cbn [quoted content] in Hplain.
    destruct v as [|x v].
    + exists {| state := START_FIELD; fields := fs; field := [] |}, b.
      split_and!; [right; right; split; reflexivity | reflexivity | reflexivity
                  | right; split; reflexivity |].
      reflexivity.
    + exists {| state := IN_FIELD; fields := fs; field := x :: v |}, true.
      split_and!; [left; reflexivity | reflexivity | reflexivity | left; reflexivity |].
      intros rest. inversion Hplain as [|? ? Hx Hv]; subst.
      destruct (plain_tests x Hx) as (Hn & Hcomma & Hdq & Hlf).
      cbn [app]. rewrite reader_text_cons. unfold parse_process_char_nolimit, start_field_nolimit. cbn [state].
      rewrite Hn, Hdq, Hcomma, Hlf. cbn [rbind]. unfold parse_add_char_nolimit, set_state.
      cbn [state fields field app]. rewrite read_plain by assumption. reflexivity.
Qed.

Lemma read_comma (self : ReaderObj) (b : bool) (rest : text) :
  cell_done self ->
  reader_text self b (COMMA :: rest) =
  reader_text {| state := START_FIELD; fields := fields self ++ [field self]; field := [] |}
              true rest.
Proof.
  intros H. rewrite reader_text_cons. destruct self as [st fs f].
  unfold cell_done in H. cbn [state field fields] in *.
  destruct H as [-> | [-> | [-> ->]]]; reflexivity.
Qed.

Lemma read_LF (self : ReaderObj) (b : bool) (rest : text) :
  cell_done self ->
  reader_text self b (LF :: rest) =
  rbind (reader_text parse_reset false rest)
        (fun rows => Ok ((fields self ++ [field self]) :: rows)).
Proof.
  intros H. rewrite reader_text_cons. destruct self as [st fs f].
  unfold cell_done in H. cbn [state field fields] in *.
  destruct H as [-> | [-> | [-> ->]]]; reflexivity.
Qed.

Lemma read_end (self : ReaderObj) :
  cell_done self ->
  reader_text self true [] = Ok [fields self ++ [field self]].
Proof.
  intros H. destruct self as [st fs f].
  unfold cell_done in H. cbn [state field fields] in *.
  destruct H as [-> | [-> | [-> ->]]]; reflexivity.
Qed.

Lemma render_record_cons (c : cell) (cs : list cell) :
  render_record (c :: cs) =
  match cs with
  | [] => render_cell c
  | _ => render_cell c ++ [COMMA] ++ render_record cs
  end.
Proof. reflexivity. Qed.

(** A record, read from the start of its first field. *)
Lemma read_record (cells : list cell) :
  cells <> [] -> Forall cell_ok cells ->
  forall fs b, exists self' b',
    cell_done self' /\ fields self' ++ [field self'] = fs ++ contents cells /\
    (b' = true \/ (b' = b /\ render_record cells = [])) /\
    forall rest,
      reader_text {| state := START_FIELD; fields := fs; field := [] |} b
                  (render_record cells ++ rest) =
      reader_text self' b' rest.
Proof.
  induction cells as [|c cs IH]; [congruence|]. intros _ Hok fs b.
  inversion Hok as [|? ? Hc Hcs]; subst.
  destruct (read_cell c fs b Hc) as (s1 & b1 & Hdone & Hfs & Hf & Hb & Hread).
  rewrite render_record_cons. destruct cs as [|c2 cs'].
  - exists s1, b1. split_and!; try assumption.
    rewrite Hfs, Hf. reflexivity.
  - destruct (IH ltac:(discriminate) Hcs (fs ++ [content c]) true)
      as (s2 & b2 & Hdone2 & Hfs2 & Hb2 & Hread2).
    exists s2, true. split_and!; [assumption | | left; reflexivity |].
    + rewrite Hfs2. unfold contents. cbn [map]. rewrite <- app_assoc. reflexivity.
    + intros rest. rewrite <- !app_assoc. rewrite Hread. cbn [app].
      rewrite read_comma by assumption. rewrite Hfs, Hf.
      rewrite Hread2. destruct Hb2 as [-> | [-> _]]; reflexivity.
Qed.

Lemma render_record_first (cells : list cell) (c : Z) (t : text) :
  Forall cell_ok cells -> render_record cells = c :: t -> is_newline c = false.
Proof.
  intros Hok. destruct cells as [|[q v] cs]; [discriminate|].
  inversion Hok as [|? ? Hc Hcs]; subst. rewrite render_record_cons.
  unfold render_cell. cbn [quoted content]. destruct q.
  - destruct cs; cbn [app]; intros [= <- _]; reflexivity.
  - destruct Hc as [Hq | Hplain]; [discriminate|]. cbn [content] in Hplain.
    destruct v as [|x v].
    + destruct cs; cbn [app]; [discriminate|]. intros [= <- _]. reflexivity.
    + inversion Hplain as [|? ? Hx Hv]; subst.
      destruct cs; cbn [app]; intros [= <- _]; apply (plain_tests x Hx).
Qed.

Lemma read_record_start (cells : list cell) (b : bool) (rest : text) :
  record_ok cells ->
  reader_text parse_reset b (render_record cells ++ rest) =
  reader_text {| state := START_FIELD; fields := []; field := [] |} b
              (render_record cells ++ rest).
Proof.
  intros [Hok Hne]. destruct (render_record cells) as [|c t] eqn:Hr; [congruence|].
  pose proof (render_record_first cells c t Hok Hr) as Hn.
  cbn [app]. rewrite !reader_text_cons. unfold parse_process_char_nolimit, parse_reset.
  cbn [state]. rewrite Hn. reflexivity.
Qed.

Lemma record_ok_nonempty (cells : list cell) : record_ok cells -> cells <> [].
Proof. intros [_ Hne] ->. apply Hne. reflexivity. Qed.

(** A record and the LF after it. *)
Lemma read_record_LF (cells : list cell) (rest : text) :
  record_ok cells ->
  reader_text parse_reset false (render_record cells ++ LF :: rest) =
  rbind (reader_text parse_reset false rest) (fun rows => Ok (contents cells :: rows)).
Proof.
  intros Hrec. rewrite read_record_start by assumption.
  destruct (read_record cells (record_ok_nonempty _ Hrec) (proj1 Hrec) [] false)
    as (s & b & Hdone & Hfs & _ & Hread).
  rewrite Hread, read_LF by assumption. rewrite Hfs. reflexivity.
Qed.

(** A record at the end of the text, with no LF after it. *)
Lemma read_record_end (cells : list cell) :
  record_ok cells ->
  reader_text parse_reset false (render_record cells) = Ok [contents cells].
Proof.
  intros Hrec. rewrite <- (app_nil_r (render_record cells)).
  rewrite read_record_start by assumption.
  destruct (read_record cells (record_ok_nonempty _ Hrec) (proj1 Hrec) [] false)
    as (s & b & Hdone & Hfs & Hb & Hread).
  rewrite Hread. destruct Hb as [-> | [_ Hnil]]; [| destruct Hrec; contradiction].
  rewrite read_end by assumption. rewrite Hfs. reflexivity.
Qed.

Lemma render_csv_cons (eol : text) (final : bool) (r : list cell) (rs : list (list cell)) :
  render_csv eol final (r :: rs) =
  match rs with
  | [] => render_record r ++ (if final then eol else [])
  | _ => render_record r ++ eol ++ render_csv eol final rs
  end.
Proof. reflexivity. Qed.

(** The text of a well-formed file, lines ended by LF. *)
Lemma read_csv (final : bool) (records : list (list cell)) :
  Forall record_ok records ->
  reader_text parse_reset false (render_csv [LF] final records) = Ok (map contents records).
Proof.
  induction 1 as [|r rs Hr Hrs IH]; [reflexivity|].
  rewrite render_csv_cons. destruct rs as [|r2 rs'].
  - destruct final.
    + cbn [app]. rewrite read_record_LF by assumption. reflexivity.
    + rewrite app_nil_r. rewrite read_record_end by assumption. reflexivity.
  - cbn [app]. rewrite read_record_LF by assumption. rewrite IH. reflexivity.
Qed.

(** A quoted field that is left open is closed by the end of the input:
    what follows the opening quote is the field. *)
Lemma read_unterminated (v : text) :
  forall fs f b,
  reader_text {| state := IN_QUOTED_FIELD; fields := fs; field := f |} b (escape_quotes v) =
  Ok [fs ++ [f ++ v]].
Proof.
  induction v as [|c v IH]; intros fs f b.
  - rewrite app_nil_r. destruct b; destruct f; reflexivity.
  - rewrite escape_quotes_cons. destruct (c =? DQUOTE) eqn:Hq.
    + apply Z.eqb_eq in Hq. subst c. cbn [app].
      rewrite reader_text_cons. unfold parse_process_char_nolimit. cbn [state].
      rewrite Z.eqb_refl. cbn [rbind]. change (DQUOTE =? LF) with false. cbv iota.
      rewrite reader_text_cons. unfold parse_process_char_nolimit, set_state. cbn [state].
      rewrite Z.eqb_refl. cbn [rbind]. change (DQUOTE =? LF) with false. cbv iota.
      unfold parse_add_char_nolimit, set_state. cbn [state fields field].
      rewrite IH. rewrite <- app_assoc. reflexivity.
    + cbn [app]. rewrite reader_text_cons. unfold parse_process_char_nolimit. cbn [state].
      rewrite Hq. cbn [rbind]. unfold parse_add_char_nolimit. cbn [state fields field].
      destruct (c =? LF) eqn:Hlf.
      * unfold end_of_line, parse_process_char_nolimit. cbn [state rbind is_START_RECORD].
        rewrite IH. rewrite <- app_assoc. reflexivity.
      * rewrite IH. rewrite <- app_assoc. reflexivity.
Qed.

(** *** Universal newlines on a well-formed file *)

Lemma universal_newlines_cons (c : Z) (t : text) :
  c <> CR -> universal_newlines (c :: t) = c :: universal_newlines t.
Proof.
  intros H. cbn [universal_newlines]. destruct (c =? CR) eqn:E; [|reflexivity].
  apply Z.eqb_eq in E. contradiction.
Qed.

Lemma universal_newlines_CR (t : text) :
  universal_newlines (CR :: t) =
  match t with
  | c :: _ => if c =? LF then universal_newlines t else LF :: universal_newlines t
  | [] => [LF]
  end.
Proof.
  cbn [universal_newlines]. rewrite Z.eqb_refl. destruct t as [|c t']; [reflexivity|].
  destruct (c =? LF) eqn:E; [|reflexivity].
  apply Z.eqb_eq in E. subst c. reflexivity.
Qed.

Lemma universal_newlines_no_CR_app (v rest : text) :
  no_CR v -> universal_newlines (v ++ rest) = v ++ universal_newlines rest.
Proof.
  induction 1 as [|c v Hc Hv IH]; [reflexivity|].
  cbn [app]. rewrite universal_newlines_cons by assumption. rewrite IH. reflexivity.
Qed.

Lemma universal_newlines_plain (v rest : text) :
  Forall plain v -> universal_newlines (v ++ rest) = v ++ universal_newlines rest.
Proof.
  induction 1 as [|c v Hc Hv IH]; [reflexivity|].
  cbn [app]. rewrite universal_newlines_cons by apply Hc. rewrite IH. reflexivity.
Qed.

Lemma universal_newlines_quoted (v rest : text) :
  universal_newlines (escape_quotes v ++ DQUOTE :: rest) =
  escape_quotes (universal_newlines v) ++ DQUOTE :: universal_newlines rest.
Proof.
  induction v as [|c v IH].
  - cbn [escape_quotes flat_map app universal_newlines]. 
    apply universal_newlines_cons. discriminate.
  - rewrite escape_quotes_cons. destruct (c =? DQUOTE) eqn:Hq.
    + apply Z.eqb_eq in Hq. subst c. cbn [app].
      rewrite !(universal_newlines_cons DQUOTE) by discriminate.
      rewrite IH. rewrite escape_quotes_cons. reflexivity.
    + cbn [app]. destruct (Z.eq_dec c CR) as [-> | Hcr].
      * rewrite !universal_newlines_CR. destruct v as [|x v'].
        { cbn [escape_quotes flat_map app]. change (DQUOTE =? LF) with false. cbv iota.
          rewrite universal_newlines_cons by discriminate. reflexivity. }
        rewrite escape_quotes_cons in *. destruct (x =? DQUOTE) eqn:Hx.
        { apply Z.eqb_eq in Hx. subst x. cbn [app] in *.
          change (DQUOTE =? LF) with false. cbv iota. rewrite IH. reflexivity. }
        cbn [app] in *. destruct (x =? LF) eqn:Hlf.
        { exact IH. }
        rewrite IH. reflexivity.
      * rewrite !universal_newlines_cons by assumption. rewrite IH.
        rewrite escape_quotes_cons, Hq. reflexivity.
Qed.

Lemma plain_no_CR (v : text) : Forall plain v -> universal_newlines v = v.
Proof.
  intros H. rewrite <- (app_nil_r v) at 1. rewrite universal_newlines_plain by assumption.
  cbn. apply app_nil_r.
Qed.

Lemma universal_newlines_cell (c : cell) (rest : text) :
  cell_ok c ->
  universal_newlines (render_cell c ++ rest) =
  render_cell (normalize_cell c) ++ universal_newlines rest.
Proof.
  intros Hok. destruct c as [q v]. unfold render_cell, normalize_cell. cbn [quoted content] in *.
  destruct q.
  - cbn [app]. rewrite universal_newlines_cons by discriminate.
    rewrite <- !app_assoc. cbn [app]. rewrite universal_newlines_quoted. reflexivity.
  - destruct Hok as [Hq | Hplain]; [discriminate|]. cbn [content] in Hplain.
    rewrite universal_newlines_plain, (plain_no_CR v) by assumption. reflexivity.
Qed.

Lemma universal_newlines_record (cells : list cell) (rest : text) :
  Forall cell_ok cells ->
  universal_newlines (render_record cells ++ rest) =
  render_record (map normalize_cell cells) ++ universal_newlines rest.
Proof.
  induction 1 as [|c cs Hc Hcs IH]; [reflexivity|].
  cbn [map]. rewrite !render_record_cons. destruct cs as [|c2 cs'].
  - apply universal_newlines_cell. assumption.
  - cbn [map] in *. rewrite <- !app_assoc. rewrite universal_newlines_cell by assumption.
    cbn [app]. rewrite universal_newlines_cons by discriminate. rewrite IH. reflexivity.
Qed.

Lemma cell_ok_normalize (c : cell) : cell_ok c -> cell_ok (normalize_cell c).
Proof.
  intros [Hq | Hp]; [left; exact Hq | right].
  unfold normalize_cell. cbn [content]. rewrite plain_no_CR; assumption.
Qed.

Lemma normalize_cell_id (c : cell) : no_CR (content c) -> normalize_cell c = c.
Proof.
  intros H. destruct c as [q v]. unfold normalize_cell. cbn [quoted content] in *.
  rewrite <- (app_nil_r v) at 1. rewrite universal_newlines_no_CR_app by assumption.
  cbn [universal_newlines]. rewrite app_nil_r. reflexivity.
Qed.

Lemma universal_newlines_nil (t : text) : universal_newlines t = [] -> t = [].
Proof.
  destruct t as [|c t]; [reflexivity|]. cbn [universal_newlines].
  destruct (c =? CR); discriminate.
Qed.

Lemma record_ok_normalize (cells : list cell) :
  record_ok cells -> record_ok (map normalize_cell cells).
Proof.
  intros [Hok Hne]. split.
  - apply List.Forall_map. eapply Forall_impl; [exact Hok|]. apply cell_ok_normalize.
  - intros Hnil. apply Hne. apply universal_newlines_nil.
    rewrite <- (app_nil_r (render_record cells)).
    rewrite universal_newlines_record by assumption. rewrite Hnil. reflexivity.
Qed.

Lemma render_csv_first (eol : text) (final : bool) (r : list cell) (rs : list (list cell)) :
  record_ok r ->
  exists c t, render_csv eol final (r :: rs) = c :: t /\ is_newline c = false.
Proof.
  intros [Hok Hne]. rewrite render_csv_cons.
  destruct (render_record r) as [|c t] eqn:Hr; [congruence|].
  pose proof (render_record_first r c t Hok Hr) as Hn.
  destruct rs; cbn [app]; eauto.
Qed.

Lemma universal_newlines_eol (eol rest : text) :
  is_eol eol ->
  (rest = [] \/ exists c t, rest = c :: t /\ is_newline c = false) ->
  universal_newlines (eol ++ rest) = LF :: universal_newlines rest.
Proof.
  intros [-> | [-> | ->]] Hrest; cbn [app].
  - apply universal_newlines_cons. discriminate.
  - rewrite universal_newlines_CR. change (LF =? LF) with true. cbv iota.
    apply universal_newlines_cons. discriminate.
  - rewrite universal_newlines_CR. destruct Hrest as [-> | (c & t & -> & Hn)]; [reflexivity|].
    unfold is_newline in Hn. apply orb_false_iff in Hn. destruct Hn as [-> _]. reflexivity.
Qed.

Lemma universal_newlines_csv (eol : text) (final : bool) (records : list (list cell)) :
  is_eol eol -> Forall record_ok records ->
  universal_newlines (render_csv eol final records) =
  render_csv [LF] final (map (map normalize_cell) records).
Proof.
  intros Heol. induction 1 as [|r rs Hr Hrs IH]; [reflexivity|].
  cbn [map]. rewrite !render_csv_cons. destruct Hr as [Hok Hne].
  destruct rs as [|r2 rs']; cbn [map] in *; rewrite universal_newlines_record by assumption.
  - destruct final; [|reflexivity].
    rewrite <- (app_nil_r eol). rewrite universal_newlines_eol by (auto; left; reflexivity).
    reflexivity.
  - rewrite universal_newlines_eol.
    + rewrite IH. reflexivity.
    + assumption.
    + right. inversion Hrs; subst. apply render_csv_first. assumption.
Qed.

(** The tokenizer on the lines of a well-formed file returns its records,
    cell by cell. *)
Lemma reader_well_formed (eol : text) (final : bool) (records : list (list cell)) :
  is_eol eol -> Forall record_ok records ->
  reader_rows_nolimit parse_reset (text_lines (universal_newlines (render_csv eol final records))) =
  Ok (map (fun r => contents (map normalize_cell r)) records).
Proof.
  intros Heol Hrec. rewrite reader_rows_text, universal_newlines_csv by assumption.
  rewrite read_csv.
  - rewrite map_map. reflexivity.
  - apply List.Forall_map. eapply Forall_impl; [exact Hrec|]. apply record_ok_normalize.
Qed.

Lemma unterminated_field_closed (v : text) :
  reader_rows_nolimit parse_reset (text_lines (DQUOTE :: escape_quotes v)) = Ok [[v]].
Proof.
  rewrite reader_rows_text, reader_text_cons. unfold parse_process_char_nolimit, parse_reset.
  cbn [state]. change (is_newline DQUOTE) with false. cbv iota.
  unfold start_field_nolimit, set_state. cbn [state fields field].
  change (is_newline DQUOTE) with false. rewrite Z.eqb_refl. cbn [rbind].
  change (DQUOTE =? LF) with false. cbv iota. apply read_unterminated.
Qed.

(** *** Without the field limit, the tokenizer raises on no text file *)

Lemma universal_newlines_no_CR_aux (t : text) :
  no_CR (universal_newlines t) /\ forall c, no_CR (universal_newlines (c :: t)).
Proof.
  unfold no_CR. induction t as [|x t [IH1 IH2]].
  - split; [constructor|]. intros c. cbn [universal_newlines].
    destruct (c =? CR) eqn:E; constructor; try constructor; try discriminate.
    apply Z.eqb_neq. exact E.
  - split; [apply IH2|]. intros c. cbn [universal_newlines].
    destruct (c =? CR) eqn:E.
    + constructor; [discriminate|]. destruct (x =? LF); [apply IH1 | apply IH2].
    + constructor; [apply Z.eqb_neq; exact E | apply IH2].
Qed.

Lemma universal_newlines_no_CR (t : text) : no_CR (universal_newlines t).
Proof. apply universal_newlines_no_CR_aux. Qed.

(** Outside EAT_CRNL a character that is not CR leaves the tokenizer
    outside EAT_CRNL, unless it is LF; after LF comes the end of the
    line. *)
Lemma process_char_ok (self : ReaderObj) (c : Z) :
  state self <> EAT_CRNL -> c <> CR ->
  exists self', parse_process_char_nolimit self (Chr c) = Ok self' /\
    (c <> LF -> state self' <> EAT_CRNL).
Proof.
  intros Hs Hc. destruct self as [st fs f]. cbn [state] in Hs.
  unfold parse_process_char_nolimit, start_field_nolimit, is_newline. cbn [state].
  assert ((c =? CR) = false) as -> by (apply Z.eqb_neq; exact Hc).
  rewrite orb_false_r.
  destruct st; try congruence;
    destruct (c =? LF) eqn:Hlf; destruct (c =? DQUOTE) eqn:Hq; destruct (c =? COMMA) eqn:Hcm;
    eexists; (split; [reflexivity|]); intros Hne; try discriminate;
    apply Z.eqb_eq in Hlf; contradiction.
Qed.

Lemma process_EOL_ok (self : ReaderObj) :
  exists self', parse_process_char_nolimit self EOL = Ok self' /\
    (state self' = START_RECORD \/ state self' = IN_QUOTED_FIELD).
Proof.
  destruct self as [[] fs f]; eexists; (split; [reflexivity|]); cbn; auto.
Qed.

Lemma end_of_line_ok (self : ReaderObj) (k : ReaderObj -> result (list (list text))) :
  (forall s, state s <> EAT_CRNL -> exists rows, k s = Ok rows) ->
  exists rows, end_of_line self k = Ok rows.
Proof.
  intros Hk. unfold end_of_line.
  destruct (process_EOL_ok self) as (s & -> & Hs). cbn [rbind].
  destruct (is_START_RECORD (state s)).
  - destruct (Hk parse_reset) as (rows & ->); [discriminate|]. cbn. eauto.
  - apply Hk. destruct Hs as [-> | ->]; discriminate.
Qed.

Lemma at_eof_ok (self : ReaderObj) : exists rows, at_eof self = Ok rows.
Proof. unfold at_eof. destruct (_ || _); eauto. Qed.

Lemma reader_text_ok (t : text) :
  no_CR t -> forall self b, state self <> EAT_CRNL ->
  exists rows, reader_text self b t = Ok rows.
Proof.
  induction 1 as [|c t Hc Ht IH]; intros self b Hs.
  - cbn [reader_text]. destruct b; [|apply at_eof_ok].
    apply end_of_line_ok. intros s _. apply at_eof_ok.
  - rewrite reader_text_cons.
    destruct (process_char_ok self c Hs Hc) as (s1 & -> & Hs1). cbn [rbind].
    destruct (c =? LF) eqn:Hlf.
    + apply end_of_line_ok. intros s Hs'. apply IH. assumption.
    + apply IH. apply Hs1. apply Z.eqb_neq. exact Hlf.
Qed.

(** Whatever the file holds, the reader without the field limit returns
    records. *)
Lemma reader_total (data : text) :
  exists rows, reader_rows_nolimit parse_reset (text_lines (universal_newlines data)) = Ok rows.
Proof.
  rewrite reader_rows_text. apply reader_text_ok; [apply universal_newlines_no_CR | discriminate].
Qed.

(** *** Files of one line *)

Lemma text_lines_one (l : text) :
  Forall (fun c => c <> LF) l ->
  text_lines (l ++ [LF]) = [l ++ [LF]] /\ (length (text_lines l) <= 1)%nat.
Proof.
  induction 1 as [|c l Hc Hl [IH1 IH2]].
  - split; [reflexivity | cbn; lia].
  - cbn [app]. rewrite !text_lines_cons.
    assert ((c =? LF) = false) as -> by (apply Z.eqb_neq; assumption).
    rewrite IH1. split; [reflexivity|].
    destruct (text_lines l) as [|l1 ls]; [cbn; lia|]. cbn [length] in *. lia.
Qed.

Lemma single_line_lines (data : text) :
  single_line data -> (length (text_lines (universal_newlines data)) <= 1)%nat.
Proof.
  intros (l & nl & -> & Hl & Hnl).
  assert (no_CR l) as Hcr by (eapply Forall_impl; [exact Hl | intros c [_ H]; exact H]).
  assert (Forall (fun c => c <> LF) l) as Hlf
    by (eapply Forall_impl; [exact Hl | intros c [H _]; exact H]).
  rewrite universal_newlines_no_CR_app by assumption.
  destruct (text_lines_one l Hlf) as [H1 H2].
  destruct Hnl as [-> | [-> | [-> | ->]]]; cbn [universal_newlines Z.eqb CR LF Pos.eqb].
  - rewrite app_nil_r. exact H2.
  - change [10] with [LF]. rewrite H1. cbn. lia.
  - change [10] with [LF]. rewrite H1. cbn. lia.
  - change [10] with [LF]. rewrite H1. cbn. lia.
Qed.

(** The reader returns no more records than it reads lines. *)
Lemma reader_rows_count (input_iter : list text) :
  forall self rows, reader_rows self input_iter = Ok rows ->
  (length rows <= S (length input_iter))%nat /\
  (input_iter <> [] \/ self = parse_reset -> length rows <= length input_iter)%nat.
Proof.
  induction input_iter as [|l ls IH]; intros self rows Hrows.
  - cbn [reader_rows] in Hrows. split.
    + destruct (_ || _); injection Hrows as <-; cbn; lia.
    + intros [H | ->]; [congruence|]. cbn in Hrows. injection Hrows as <-. cbn. lia.
  - cbn [reader_rows] in Hrows. destruct (feed_line self l) as [self'|e]; [|discriminate].
    cbn [rbind length] in *. 
    assert (length rows <= S (length ls))%nat as Hle.
    { destruct (is_START_RECORD (state self')).
      - destruct (reader_rows parse_reset ls) as [rows'|e] eqn:Hr; [|discriminate].
        cbn [rbind] in Hrows. injection Hrows as <-. cbn [length].
        destruct (IH _ _ Hr) as [_ H]. specialize (H (or_intror eq_refl)). lia.
      - destruct (IH _ _ Hrows) as [H _]. exact H. }
    split; [lia | intros _; exact Hle].
Qed.

Lemma single_line_rows (data : text) (rows : list (list text)) :
  single_line data ->
  reader_rows parse_reset (text_lines (universal_newlines data)) = Ok rows ->
  rows_of rows = [].
Proof.
  intros Hs Hrows. pose proof (single_line_lines data Hs) as Hlen.
  destruct (reader_rows_count _ _ _ Hrows) as [_ H]. specialize (H (or_intror eq_refl)).
  destruct rows as [|names [|r rest]]; [reflexivity | reflexivity |]. cbn [length] in H. lia.
Qed.

(** *** The field limit

    [parse_process_char] is [parse_process_char_nolimit] until a field
    would grow over the limit; then it raises, where the other goes on
    with a field over the limit. *)

Lemma add_char_limit (self : ReaderObj) (c : Z) :
  parse_add_char self c = Ok (parse_add_char_nolimit self c) \/
  (parse_add_char self c = Raise (csv_Error field_limit_error) /\
   over_limit (field (parse_add_char_nolimit self c))).
Proof.
  unfold parse_add_char, parse_add_char_nolimit, over_limit. cbn [field].
  destruct (field_limit <=? Z.of_nat (length (field self))) eqn:E; [right | left; reflexivity].
  split; [reflexivity|]. apply Z.leb_le in E. rewrite length_app. cbn [length]. lia.
Qed.

Lemma process_char_limit (self : ReaderObj) (c : input) :
  parse_process_char self c = parse_process_char_nolimit self c \/
  (parse_process_char self c = Raise (csv_Error field_limit_error) /\
   exists self', parse_process_char_nolimit self c = Ok self' /\ over_limit (field self')).
Proof.
  unfold parse_process_char, parse_process_char_nolimit, start_field, start_field_nolimit.
  destruct (state self); destruct c as [ch|]; try (left; reflexivity);
    repeat match goal with
           | |- context [if ?b then _ else _] => destruct b; try (left; reflexivity)
           end;
    match goal with
    | |- context [parse_add_char ?s ch] =>
        destruct (add_char_limit s ch) as [-> | [-> Hover]];
          [left; reflexivity | right; split; [reflexivity | eexists; split; [reflexivity|]]];
          exact Hover
    end.
Qed.

Lemma over_limit_app (f : text) (c : Z) : over_limit f -> over_limit (f ++ [c]).
Proof. unfold over_limit. rewrite length_app. cbn [length]. lia. Qed.

Lemma over_limit_nil : ~ over_limit [].
Proof. unfold over_limit, field_limit. cbn [length]. lia. Qed.

Lemma holds_over_limit_save (self : ReaderObj) :
  holds_over_limit self -> Exists over_limit (fields self ++ [field self]).
Proof.
  intros [H | H]; apply Exists_app; [right | left; exact H].
  apply Exists_cons. left. exact H.
Qed.

Ltac over_limit_cases :=
  unfold holds_over_limit, set_state, parse_save_field, parse_add_char_nolimit;
  cbn [state fields field];
  first [ assumption
        | right; apply holds_over_limit_save; assumption
        | match goal with
          | H : holds_over_limit _ |- _ =>
              destruct H as [H | H]; [left; apply over_limit_app; exact H | right; exact H]
          end ].

(** A field over the limit stays: it grows, or it is saved. *)
Lemma holds_over_limit_step (self self' : ReaderObj) (c : input) :
  parse_process_char_nolimit self c = Ok self' -> holds_over_limit self ->
  holds_over_limit self'.
Proof.
  unfold parse_process_char_nolimit, start_field_nolimit. intros Hstep Hover.
  destruct (state self); destruct c as [ch|];
    repeat match type of Hstep with
           | context [if ?b then _ else _] => destruct b
           end;
    try discriminate; injection Hstep as <-; over_limit_cases.
Qed.

Lemma idle_empty_step (self self' : ReaderObj) (c : input) :
  parse_process_char_nolimit self c = Ok self' -> idle_empty self -> idle_empty self'.
Proof.
  unfold parse_process_char_nolimit, start_field_nolimit, idle_empty. intros Hstep Hidle.
  destruct (state self) eqn:Hs; destruct c as [ch|];
    repeat match type of Hstep with
           | context [if ?b then _ else _] => destruct b
           end;
    try discriminate; injection Hstep as <-;
    unfold set_state, parse_save_field, parse_add_char_nolimit; cbn [state fields field];
    intros [H | H]; try discriminate; try reflexivity; try congruence; apply Hidle; auto.
Qed.

Lemma process_EOL_state (self self' : ReaderObj) :
  parse_process_char_nolimit self EOL = Ok self' ->
  state self' = START_RECORD \/ state self' = IN_QUOTED_FIELD.
Proof.
  intros H. destruct (process_EOL_ok self) as (s & Hs & Hstate).
  rewrite Hs in H. injection H as <-. exact Hstate.
Qed.

Lemma feed_line_nolimit_inv (lineobj : text) :
  forall self self', feed_line_nolimit self lineobj = Ok self' ->
  (state self' = START_RECORD \/ state self' = IN_QUOTED_FIELD) /\
  (idle_empty self -> idle_empty self') /\
  (holds_over_limit self -> holds_over_limit self').
Proof.
  induction lineobj as [|c rest IH]; intros self self' Hfeed; cbn [feed_line_nolimit] in Hfeed.
  - split_and!.
    + eapply process_EOL_state; eassumption.
    + eapply idle_empty_step; eassumption.
    + eapply holds_over_limit_step; eassumption.
  - destruct (parse_process_char_nolimit self (Chr c)) as [s1|e] eqn:Hstep; [|discriminate].
    cbn [rbind] in Hfeed. destruct (IH s1 self' Hfeed) as (Hstate & Hidle & Hover).
    split_and!; [exact Hstate | |].
    + intros H. apply Hidle. eapply idle_empty_step; eassumption.
    + intros H. apply Hover. eapply holds_over_limit_step; eassumption.
Qed.

Lemma feed_line_limit (lineobj : text) :
  forall self,
  feed_line self lineobj = feed_line_nolimit self lineobj \/
  (feed_line self lineobj = Raise (csv_Error field_limit_error) /\
   forall self', feed_line_nolimit self lineobj = Ok self' -> holds_over_limit self').
Proof.
  induction lineobj as [|c rest IH]; intros self; cbn [feed_line feed_line_nolimit].
  - destruct (process_char_limit self EOL) as [-> | [-> (s & Hs & Hover)]]; [left; reflexivity|].
    right. split; [reflexivity|]. intros self' H. rewrite Hs in H. injection H as <-.
    left. exact Hover.
  - destruct (process_char_limit self (Chr c)) as [-> | [-> (s & Hs & Hover)]].
    + destruct (parse_process_char_nolimit self (Chr c)) as [s1|e]; [|left; reflexivity].
      cbn [rbind]. apply IH.
    + right. split; [reflexivity|]. intros self' H. rewrite Hs in H. cbn [rbind] in H.
      apply (feed_line_nolimit_inv rest s self' H). left. exact Hover.
Qed.

Lemma idle_over_limit (self : ReaderObj) :
  is_START_RECORD (state self) = true -> idle_empty self -> holds_over_limit self ->
  Exists over_limit (fields self).
Proof.
  intros Hstate Hidle [H | H]; [|exact H]. exfalso.
  destruct (state self) eqn:Hs; try discriminate.
  rewrite Hidle in H by (left; exact Hs). exact (over_limit_nil H).
Qed.

Lemma idle_empty_quoted (self : ReaderObj) : state self = IN_QUOTED_FIELD -> idle_empty self.
Proof. intros H [H1 | H1]; congruence. Qed.

(** A field over the limit, held inside a quoted field at the end of a
    line, is in the records. *)
Lemma over_limit_rows (input_iter : list text) :
  forall self rows, state self = IN_QUOTED_FIELD -> holds_over_limit self ->
  reader_rows_nolimit self input_iter = Ok rows -> Exists (Exists over_limit) rows.
Proof.
  induction input_iter as [|l ls IH]; intros self rows Hstate Hover Hrows;
    cbn [reader_rows_nolimit] in Hrows.
  - rewrite Hstate in Hrows. cbn [is_IN_QUOTED_FIELD] in Hrows. rewrite orb_true_r in Hrows.
    injection Hrows as <-. apply Exists_cons. left. apply holds_over_limit_save. exact Hover.
  - destruct (feed_line_nolimit self l) as [s1|e] eqn:Hfeed; [|discriminate].
    cbn [rbind] in Hrows.
    destruct (feed_line_nolimit_inv l self s1 Hfeed) as (Hst & Hidle & Hov).
    specialize (Hov Hover). specialize (Hidle (idle_empty_quoted self Hstate)).
    destruct (is_START_RECORD (state s1)) eqn:Hsr.
    + destruct (reader_rows_nolimit parse_reset ls) as [rows'|e]; [|discriminate].
      cbn [rbind] in Hrows. injection Hrows as <-.
      apply Exists_cons. left. apply idle_over_limit; assumption.
    + apply (IH s1 rows); [|assumption|assumption].
      destruct Hst as [H | H]; [rewrite H in Hsr; discriminate | exact H].
Qed.

(** [reader_rows] is [reader_rows_nolimit], unless a field of the records
    is over the limit: then it raises. *)
Lemma reader_rows_limit (input_iter : list text) :
  forall self, state self = IN_QUOTED_FIELD \/ self = parse_reset ->
  reader_rows self input_iter = reader_rows_nolimit self input_iter \/
  (reader_rows self input_iter = Raise (csv_Error field_limit_error) /\
   forall rows, reader_rows_nolimit self input_iter = Ok rows ->
                Exists (Exists over_limit) rows).
Proof.
  induction input_iter as [|l ls IH]; intros self Hself; [left; reflexivity|].
  cbn [reader_rows reader_rows_nolimit].
  assert (idle_empty self) as Hidle0.
  { destruct Hself as [H | ->]; [apply idle_empty_quoted; exact H | intros _; reflexivity]. }
  destruct (feed_line_limit l self) as [-> | [-> Hover]].
  - destruct (feed_line_nolimit self l) as [s1|e] eqn:Hfeed; [|left; reflexivity].
    cbn [rbind]. destruct (feed_line_nolimit_inv l self s1 Hfeed) as (Hst & _ & _).
    destruct (is_START_RECORD (state s1)) eqn:Hsr.
    + destruct (IH parse_reset (or_intror eq_refl)) as [-> | [-> Hrest]]; [left; reflexivity|].
      right. split; [reflexivity|]. intros rows Hrows.
      destruct (reader_rows_nolimit parse_reset ls) as [rows'|e]; [|discriminate].
      cbn [rbind] in Hrows. injection Hrows as <-. apply Exists_cons. right.
      apply Hrest. reflexivity.
    + apply IH. left. destruct Hst as [H | H]; [rewrite H in Hsr; discriminate | exact H].
  - right. split; [reflexivity|]. intros rows Hrows.
    destruct (feed_line_nolimit self l) as [s1|e] eqn:Hfeed; [|discriminate].
    cbn [rbind] in Hrows.
    destruct (feed_line_nolimit_inv l self s1 Hfeed) as (Hst & Hidle & _).
    specialize (Hover s1 eq_refl). specialize (Hidle Hidle0).
    destruct (is_START_RECORD (state s1)) eqn:Hsr.
    + destruct (reader_rows_nolimit parse_reset ls) as [rows'|e]; [|discriminate].
      cbn [rbind] in Hrows. injection Hrows as <-.
      apply Exists_cons. left. apply idle_over_limit; assumption.
    + apply (over_limit_rows ls s1 rows); [|assumption|assumption].
      destruct Hst as [H | H]; [rewrite H in Hsr; discriminate | exact H].
Qed.

(** The fields [reader_rows] returns are within the limit. *)

Lemma within_limit_nil : within_limit [].
Proof. unfold within_limit, field_limit. cbn [length]. lia. Qed.

Lemma add_char_within (self s : ReaderObj) (c : Z) :
  parse_add_char self c = Ok s -> Forall within_limit (fields self) -> all_within_limit s.
Proof.
  unfold parse_add_char. destruct (field_limit <=? Z.of_nat (length (field self))) eqn:E;
    [discriminate|]. intros [= <-] Hfs. split; [|exact Hfs].
  unfold within_limit. cbn [field]. apply Z.leb_gt in E. rewrite length_app. cbn [length]. lia.
Qed.

Lemma save_field_within (self : ReaderObj) :
  all_within_limit self -> Forall within_limit (fields self ++ [field self]).
Proof. intros [Hf Hfs]. apply Forall_app. split; [exact Hfs | apply Forall_cons_2; auto]. Qed.

Lemma process_char_within (self self' : ReaderObj) (c : input) :
  parse_process_char self c = Ok self' -> all_within_limit self -> all_within_limit self'.
Proof.
  unfold parse_process_char, start_field. intros Hstep Hin.
  pose proof (save_field_within self Hin) as Hsave. pose proof within_limit_nil as Hnil.
  destruct (state self); destruct c as [ch|];
    repeat match type of Hstep with
           | context [if ?b then _ else _] => destruct b
           end;
    try discriminate;
    try (injection Hstep as <-; first [exact Hin | split; assumption]);
    match type of Hstep with
    | context [parse_add_char ?s ch] =>
        destruct (parse_add_char s ch) as [s1|e] eqn:Hadd; [|discriminate];
          cbn [rbind] in Hstep; injection Hstep as <-;
          apply add_char_within in Hadd; [exact Hadd | apply Hin]
    end.
Qed.

Lemma feed_line_within (lineobj : text) :
  forall self self', feed_line self lineobj = Ok self' -> all_within_limit self ->
  all_within_limit self'.
Proof.
  induction lineobj as [|c rest IH]; intros self self' Hfeed Hin; cbn [feed_line] in Hfeed.
  - eapply process_char_within; eassumption.
  - destruct (parse_process_char self (Chr c)) as [s1|e] eqn:Hstep; [|discriminate].
    cbn [rbind] in Hfeed. apply (IH s1 self' Hfeed). eapply process_char_within; eassumption.
Qed.

Lemma reader_rows_within (input_iter : list text) :
  forall self rows, all_within_limit self -> reader_rows self input_iter = Ok rows ->
  Forall (Forall within_limit) rows.
Proof.
  induction input_iter as [|l ls IH]; intros self rows Hin Hrows; cbn [reader_rows] in Hrows.
  - destruct (nonempty (field self) || is_IN_QUOTED_FIELD (state self));
      injection Hrows as <-; [|constructor].
    apply Forall_cons_2; [|constructor]. apply save_field_within. exact Hin.
  - destruct (feed_line self l) as [s1|e] eqn:Hfeed; [|discriminate]. cbn [rbind] in Hrows.
    pose proof (feed_line_within l self s1 Hfeed Hin) as Hin1.
    destruct (is_START_RECORD (state s1)).
    + destruct (reader_rows parse_reset ls) as [rows'|e] eqn:Hrest; [|discriminate].
      cbn [rbind] in Hrows. injection Hrows as <-.
      apply Forall_cons_2; [apply Hin1|]. apply (IH parse_reset); [|exact Hrest].
      split; [apply within_limit_nil | constructor].
    + apply (IH s1); assumption.
Qed.

Lemma reader_rows_fields_within (input_iter : list text) (rows : list (list text)) :
  reader_rows parse_reset input_iter = Ok rows -> Forall (Forall within_limit) rows.
Proof.
  apply reader_rows_within. split; [apply within_limit_nil | constructor].
Qed.

Lemma within_not_over (rows : list (list text)) :
  Forall (Forall within_limit) rows -> Exists (Exists over_limit) rows -> False.
Proof.
  intros Hin Hover. apply Exists_exists in Hover. destruct Hover as (row & Hrow & Hover).
  apply Exists_exists in Hover. destruct Hover as (f & Hf & Hover).
  rewrite Forall_forall in Hin. specialize (Hin row Hrow). rewrite Forall_forall in Hin.
  specialize (Hin f Hf). unfold within_limit, over_limit in *. lia.
Qed.

(** The three ways the two readers are used together. *)
Lemma reader_rows_of_nolimit (input_iter : list text) (rows : list (list text)) :
  reader_rows_nolimit parse_reset input_iter = Ok rows ->
  Forall (Forall within_limit) rows ->
  reader_rows parse_reset input_iter = Ok rows.
Proof.
  intros Hrows Hin.
  destruct (reader_rows_limit input_iter parse_reset (or_intror eq_refl)) as [-> | [_ Hover]];
    [exact Hrows|].
  exfalso. exact (within_not_over rows Hin (Hover rows Hrows)).
Qed.

Lemma reader_rows_to_nolimit (input_iter : list text) (rows : list (list text)) :
  reader_rows parse_reset input_iter = Ok rows ->
  reader_rows_nolimit parse_reset input_iter = Ok rows.
Proof.
  intros Hrows.
  destruct (reader_rows_limit input_iter parse_reset (or_intror eq_refl)) as [<- | [H _]];
    [exact Hrows | congruence].
Qed.

Lemma reader_rows_over_limit (input_iter : list text) (rows : list (list text)) :
  reader_rows_nolimit parse_reset input_iter = Ok rows ->
  Exists (Exists over_limit) rows ->
  reader_rows parse_reset input_iter = Raise (csv_Error field_limit_error).
Proof.
  intros Hrows Hover.
  destruct (reader_rows_limit input_iter parse_reset (or_intror eq_refl)) as [H | [H _]];
    [|exact H].
  exfalso. rewrite Hrows in H. apply (within_not_over rows); [|exact Hover].
  apply (reader_rows_within input_iter parse_reset); [|exact H].
  split; [apply within_limit_nil | constructor].
Qed.

(** On a text file the reader returns records, or raises for a field over
    the limit: it has no other error. *)
Lemma reader_result (data : text) :
  (exists rows, reader_rows parse_reset (text_lines (universal_newlines data)) = Ok rows) \/
  reader_rows parse_reset (text_lines (universal_newlines data)) =
    Raise (csv_Error field_limit_error).
Proof.
  destruct (reader_total data) as [rows Hrows].
  destruct (reader_rows_limit (text_lines (universal_newlines data)) parse_reset
              (or_intror eq_refl)) as [H | [H _]]; [left | right; exact H].
  exists rows. rewrite H. exact Hrows.
Qed.

(** *** No field is longer than the text *)

Lemma at_most_weaken (n m : nat) (self : ReaderObj) :
  (n <= m)%nat -> all_at_most n self -> all_at_most m self.
Proof.
  intros Hle [Hf Hfs]. split; [lia|]. eapply Forall_impl; [exact Hfs|].
  intros f Hlen. cbn beta in Hlen. lia.
Qed.

Lemma at_most_save (n : nat) (self : ReaderObj) :
  all_at_most n self -> Forall (fun f => (length f <= n)%nat) (fields self ++ [field self]).
Proof. intros [Hf Hfs]. apply Forall_app. split; [exact Hfs | apply Forall_cons_2; auto]. Qed.

Lemma at_most_process_char (self self' : ReaderObj) (c : input) (n : nat) :
  parse_process_char_nolimit self c = Ok self' -> all_at_most n self ->
  all_at_most (match c with Chr _ => S n | EOL => n end) self'.
Proof.
  unfold parse_process_char_nolimit, start_field_nolimit. intros Hstep Hin.
  pose proof (at_most_save n self Hin) as Hsave.
  pose proof (at_most_weaken n (S n) self ltac:(lia) Hin) as Hin'.
  pose proof (at_most_save (S n) self Hin') as Hsave'.
  destruct Hin as [Hf Hfs]. destruct Hin' as [Hf' Hfs'].
  destruct (state self); destruct c as [ch|];
    repeat match type of Hstep with
           | context [if ?b then _ else _] => destruct b
           end;
    try discriminate; injection Hstep as <-;
    unfold all_at_most, set_state, parse_save_field, parse_add_char_nolimit;
    cbn [state fields field]; rewrite ?length_app; cbn [length];
    (split; [lia | assumption]).
Qed.

Lemma at_eof_at_most (self : ReaderObj) (n : nat) (rows : list (list text)) :
  all_at_most n self -> at_eof self = Ok rows ->
  Forall (Forall (fun f => (length f <= n)%nat)) rows.
Proof.
  intros Hin. unfold at_eof.
  destruct (nonempty (field self) || is_IN_QUOTED_FIELD (state self)); intros [= <-];
    [|constructor].
  apply Forall_cons_2; [|constructor]. apply at_most_save. exact Hin.
Qed.

Lemma end_of_line_at_most (self : ReaderObj) (k : ReaderObj -> result (list (list text)))
      (n m : nat) (rows : list (list text)) :
  (n <= m)%nat -> all_at_most n self ->
  (forall s rows', all_at_most n s -> k s = Ok rows' ->
                   Forall (Forall (fun f => (length f <= m)%nat)) rows') ->
  end_of_line self k = Ok rows ->
  Forall (Forall (fun f => (length f <= m)%nat)) rows.
Proof.
  intros Hle Hin Hk. unfold end_of_line.
  destruct (parse_process_char_nolimit self EOL) as [s1|e] eqn:Hstep; [|discriminate].
  cbn [rbind]. pose proof (at_most_process_char self s1 EOL n Hstep Hin) as H1.
  cbn iota in H1. destruct (is_START_RECORD (state s1)); [|apply Hk; exact H1].
  destruct (k parse_reset) as [rows'|e] eqn:Hrest; [|discriminate]. cbn [rbind].
  intros [= <-]. apply Forall_cons_2.
  - apply (at_most_weaken n m s1 Hle H1).
  - apply (Hk parse_reset); [|exact Hrest]. split; [cbn; lia | constructor].
Qed.

Lemma reader_text_at_most (t : text) :
  forall self b n rows, all_at_most n self -> reader_text self b t = Ok rows ->
  Forall (Forall (fun f => (length f <= n + length t)%nat)) rows.
Proof.
  induction t as [|c t IH]; intros self b n rows Hin Hrows.
  - cbn [length]. rewrite Nat.add_0_r. cbn [reader_text] in Hrows.
    destruct b; [|eapply at_eof_at_most; eassumption].
    eapply (end_of_line_at_most self at_eof n n); [lia | exact Hin | | exact Hrows].
    intros s rows'. apply at_eof_at_most.
  - rewrite reader_text_cons in Hrows.
    destruct (parse_process_char_nolimit self (Chr c)) as [s1|e] eqn:Hstep; [|discriminate].
    cbn [rbind] in Hrows. pose proof (at_most_process_char self s1 (Chr c) n Hstep Hin) as H1.
    cbn iota in H1. cbn [length]. replace (n + S (length t))%nat with (S n + length t)%nat by lia.
    destruct (c =? LF); [|apply (IH s1 true); assumption].
    eapply (end_of_line_at_most s1 _ (S n) (S n + length t)%nat);
      [lia | exact H1 | | exact Hrows].
    intros s rows' Hs Hk. apply (IH s false); assumption.
Qed.

Lemma universal_newlines_length (t : text) :
  (length (universal_newlines t) <= length t)%nat /\
  forall c, (length (universal_newlines (c :: t)) <= S (length t))%nat.
Proof.
  induction t as [|x t [IH1 IH2]].
  - split; [cbn; lia|]. intros c. cbn [universal_newlines]. destruct (c =? CR); cbn; lia.
  - split; [apply IH2|]. intros c. specialize (IH2 x). cbn [length] in *.
    destruct (Z.eq_dec c CR) as [-> | Hc].
    + rewrite universal_newlines_CR. destruct (x =? LF); cbn [length]; lia.
    + rewrite universal_newlines_cons by assumption. cbn [length]. lia.
Qed.

(** A file of no more characters than the limit is read. *)
Lemma reader_short_file (data : text) :
  Z.of_nat (length data) <= field_limit ->
  exists rows, reader_rows parse_reset (text_lines (universal_newlines data)) = Ok rows.
Proof.
  intros Hlen. destruct (reader_total data) as [rows Hrows]. exists rows.
  apply reader_rows_of_nolimit; [exact Hrows|].
  rewrite reader_rows_text in Hrows.
  apply (reader_text_at_most _ parse_reset false 0%nat) in Hrows;
    [|split; [cbn; lia | constructor]].
  pose proof (proj1 (universal_newlines_length data)) as Hun.
  eapply Forall_impl; [exact Hrows|]. intros row Hrow. cbn beta in Hrow.
  eapply Forall_impl; [exact Hrow|]. intros f Hf. cbn beta in Hf.
  unfold within_limit. lia.
Qed.

(** The reader on the lines of a well-formed file. *)
Lemma reader_well_formed_within (eol : text) (final : bool) (records : list (list cell)) :
  is_eol eol -> Forall record_ok records ->
  Forall (fun r => Forall within_limit (cells_read r)) records ->
  reader_rows parse_reset (text_lines (universal_newlines (render_csv eol final records))) =
  Ok (map cells_read records).
Proof.
  intros Heol Hrec Hin. apply reader_rows_of_nolimit.
  - apply reader_well_formed; assumption.
  - apply Forall_map. exact Hin.
Qed.

(** A quoted field that is left open, and is within the limit, is closed
    by the end of the input. *)
Lemma unterminated_field_read (v : text) :
  within_limit v ->
  reader_rows parse_reset (text_lines (DQUOTE :: escape_quotes v)) = Ok [[v]].
Proof.
  intros Hv. apply reader_rows_of_nolimit; [apply unterminated_field_closed|].
  repeat constructor. exact Hv.
Qed.

Lemma reader_well_formed_over (eol : text) (final : bool) (records : list (list cell)) :
  is_eol eol -> Forall record_ok records ->
  Exists (fun r => Exists over_limit (cells_read r)) records ->
  reader_rows parse_reset (text_lines (universal_newlines (render_csv eol final records))) =
  Raise (csv_Error field_limit_error).
Proof.
  intros Heol Hrec Hover. eapply reader_rows_over_limit.
  - apply reader_well_formed; assumption.
  - apply Exists_exists in Hover. destruct Hover as (r & Hr & Hover).
    apply Exists_exists. exists (cells_read r). split; [|exact Hover].
    change (cells_read r ∈ cells_read <$> records).
    apply list_elem_of_fmap. exists r. split; [reflexivity | exact Hr].
Qed.

(** ** DictReader and dict *)

Lemma list_iter_named (names : list text) (rest : list (list text)) :
  forall fuel, (length rest < fuel)%nat ->
  list_iter fuel {| _fieldnames := Some names; reader := rest |} =
  map (row_dict names) (List.filter nonempty rest).
Proof.
  induction rest as [|r rest IH]; intros fuel Hfuel.
  - destruct fuel; [cbn in Hfuel; lia | reflexivity].
  - destruct fuel as [|fuel]; [cbn in Hfuel; lia|]. cbn [length] in Hfuel.
    destruct r as [|x r].
    + specialize (IH (S fuel) ltac:(lia)). cbn [List.filter nonempty]. rewrite <- IH.
      reflexivity.
    + cbn [List.filter nonempty map]. rewrite <- (IH fuel) by lia. reflexivity.
Qed.

(** One more call of [__next__] than there are records is enough: the
    list is complete. *)
Lemma list_rows_of (records : list (list text)) :
  list_ {| _fieldnames := None; reader := records |} = rows_of records.
Proof.
  unfold list_. cbn [reader]. destruct records as [|names rest]; [reflexivity|].
  cbn [rows_of length]. rewrite <- (list_iter_named names rest (S (S (length rest)))) by lia.
  reflexivity.
Qed.

Lemma dict_setitem_fresh (d : dict) (k : key) (v : value) :
  k ∉ dict_keys d -> dict_setitem d k v = d ++ [(k, v)].
Proof.
  unfold dict_keys. induction d as [|[k' v'] d IH]; intros Hk; [reflexivity|].
  cbn [dict_setitem]. rewrite fmap_cons in Hk. cbn [fst] in Hk.
  apply not_elem_of_cons in Hk. destruct Hk as [Hne Hk].
  destruct (decide (k = k')); [contradiction|]. cbn [app]. rewrite IH by assumption. reflexivity.
Qed.

Lemma fold_setitem_fresh (pairs : list (key * value)) :
  forall d, NoDup (dict_keys d ++ pairs.*1) ->
  fold_left (fun d kv => dict_setitem d (fst kv) (snd kv)) pairs d = d ++ pairs.
Proof.
  unfold dict_keys. induction pairs as [|[k v] pairs IH]; intros d Hnd; cbn [fold_left].
  - rewrite app_nil_r. reflexivity.
  - rewrite fmap_cons in Hnd. cbn [fst snd] in *.
    apply NoDup_app in Hnd. destruct Hnd as (Hd & Hdis & Hp).
    rewrite dict_setitem_fresh.
    + rewrite IH.
      * rewrite <- app_assoc. reflexivity.
      * rewrite fmap_app, fmap_cons. cbn [fst]. rewrite <- app_assoc. cbn [app].
        apply NoDup_app. split_and!; assumption.
    + intros Hin. apply (Hdis k Hin). left.
Qed.

Lemma dict_of_NoDup (pairs : list (key * value)) :
  NoDup (pairs.*1) -> dict_of pairs = pairs.
Proof. intros H. unfold dict_of. rewrite fold_setitem_fresh; [reflexivity | exact H]. Qed.

Lemma dict_keys_setitem (d : dict) (k : key) (v : value) (k' : key) :
  k' ∈ dict_keys (dict_setitem d k v) <-> k' = k \/ k' ∈ dict_keys d.
Proof.
  unfold dict_keys. induction d as [|[k1 v1] d IH]; cbn [dict_setitem].
  - rewrite fmap_cons, elem_of_cons. cbn [fst]. reflexivity.
  - destruct (decide (k = k1)) as [-> | Hne]; rewrite !fmap_cons, !elem_of_cons; cbn [fst].
    + tauto.
    + rewrite IH. tauto.
Qed.

Lemma dict_keys_setitem_NoDup (d : dict) (k : key) (v : value) :
  NoDup (dict_keys d) -> NoDup (dict_keys (dict_setitem d k v)).
Proof.
  unfold dict_keys. induction d as [|[k1 v1] d IH]; cbn [dict_setitem]; intros Hnd.
  - rewrite fmap_cons. apply NoDup_singleton.
  - rewrite fmap_cons in Hnd. cbn [fst] in Hnd. apply NoDup_cons in Hnd.
    destruct Hnd as [Hk1 Hnd].
    destruct (decide (k = k1)) as [-> | Hne]; rewrite fmap_cons; cbn [fst]; apply NoDup_cons.
    + split; assumption.
    + split; [|apply IH; assumption].
      intros Hin. apply (dict_keys_setitem d k v k1) in Hin. destruct Hin as [-> | Hin];
        [apply Hne; reflexivity | apply Hk1; exact Hin].
Qed.

Lemma dict_get_setitem (d : dict) (k : key) (v : value) (k' : key) :
  dict_get (dict_setitem d k v) k' = if decide (k' = k) then Some v else dict_get d k'.
Proof.
  induction d as [|[k1 v1] d IH]; cbn [dict_setitem dict_get].
  - destruct (decide (k' = k)); reflexivity.
  - destruct (decide (k = k1)) as [-> | Hne]; cbn [dict_get].
    + destruct (decide (k' = k1)); reflexivity.
    + rewrite IH. destruct (decide (k' = k1)) as [-> | Hne'].
      * destruct (decide (k1 = k)); [congruence | reflexivity].
      * reflexivity.
Qed.

Lemma fold_setitem_keys (pairs : list (key * value)) :
  forall d k,
  k ∈ dict_keys (fold_left (fun d kv => dict_setitem d (fst kv) (snd kv)) pairs d) <->
  k ∈ dict_keys d \/ k ∈ pairs.*1.
Proof.
  induction pairs as [|[k1 v1] pairs IH]; intros d k; cbn [fold_left fst snd].
  - rewrite fmap_nil, elem_of_nil. tauto.
  - rewrite IH, dict_keys_setitem, fmap_cons, elem_of_cons. cbn [fst]. tauto.
Qed.

Lemma fold_setitem_NoDup (pairs : list (key * value)) :
  forall d, NoDup (dict_keys d) ->
  NoDup (dict_keys (fold_left (fun d kv => dict_setitem d (fst kv) (snd kv)) pairs d)).
Proof.
  induction pairs as [|[k1 v1] pairs IH]; intros d Hd; cbn [fold_left fst snd];
    [exact Hd|].
  apply IH. apply dict_keys_setitem_NoDup. exact Hd.
Qed.

Lemma fold_setitem_get_other (pairs : list (key * value)) :
  forall d k, k ∉ pairs.*1 ->
  dict_get (fold_left (fun d kv => dict_setitem d (fst kv) (snd kv)) pairs d) k = dict_get d k.
Proof.
  induction pairs as [|[k1 v1] pairs IH]; intros d k Hk; cbn [fold_left fst snd];
    [reflexivity|].
  rewrite fmap_cons in Hk. cbn [fst] in Hk. apply not_elem_of_cons in Hk.
  destruct Hk as [Hne Hk]. rewrite IH by assumption. rewrite dict_get_setitem.
  destruct (decide (k = k1)); [contradiction | reflexivity].
Qed.

(** The value of a key is the one of its last item. *)
Lemma dict_of_get_last (p1 p2 : list (key * value)) (k : key) (v : value) :
  k ∉ p2.*1 -> dict_get (dict_of (p1 ++ (k, v) :: p2)) k = Some v.
Proof.
  intros Hk. unfold dict_of. rewrite fold_left_app. cbn [fold_left fst snd].
  rewrite fold_setitem_get_other by assumption. rewrite dict_get_setitem.
  destruct (decide (k = k)); [reflexivity | congruence].
Qed.

Lemma dict_of_get_elem (pairs : list (key * value)) (k : key) (v : value) :
  dict_get (dict_of pairs) k = Some v -> (k, v) ∈ pairs.
Proof.
  intros Hget. destruct (decide (k ∈ pairs.*1)) as [Hin | Hnot].
  - apply list_elem_of_split_r in Hin. destruct Hin as (l1 & l2 & Heq & Hl2).
    apply fmap_app_inv in Heq. destruct Heq as (p1 & p2' & Hp1 & Hp2 & ->).
    destruct p2' as [|[k' v'] p2]; [discriminate|].
    rewrite fmap_cons in Hp2. cbn [fst] in Hp2. injection Hp2 as Hk' Hp2. subst k' l2.
    rewrite dict_of_get_last in Hget by assumption. injection Hget as ->.
    apply elem_of_app. right. left.
  - unfold dict_of in Hget. rewrite fold_setitem_get_other in Hget by assumption.
    discriminate.
Qed.

Lemma dict_of_get_suffix (p1 p2 : list (key * value)) (k : key) (v0 : value) :
  k ∈ p2.*1 -> (forall v, (k, v) ∈ p2 -> v = v0) ->
  dict_get (dict_of (p1 ++ p2)) k = Some v0.
Proof.
  intros Hin Hv. apply list_elem_of_split_r in Hin. destruct Hin as (l1 & l2 & Heq & Hl2).
  apply fmap_app_inv in Heq. destruct Heq as (q1 & q2' & Hq1 & Hq2 & ->).
  destruct q2' as [|[k' v'] q2]; [discriminate|].
  rewrite fmap_cons in Hq2. cbn [fst] in Hq2. injection Hq2 as Hk' Hq2. subst k' l2.
  assert (v' = v0) as -> by (apply Hv, elem_of_app; right; left).
  rewrite app_assoc. apply dict_of_get_last. exact Hl2.
Qed.

(** *** The dict of a row *)

Lemma fold_restval_pairs (ks : list text) :
  forall d,
  fold_left (fun d key => dict_setitem d (KStr key) restval) ks d =
  fold_left (fun d kv => dict_setitem d (fst kv) (snd kv))
            ((fun key => (KStr key, restval)) <$> ks) d.
Proof. induction ks as [|k ks IH]; intros d; [reflexivity|]. cbn. apply IH. Qed.

Lemma zip_restval (names : list text) :
  zip (KStr <$> names) (replicate (length names) VNone) =
  (fun key => (KStr key, restval)) <$> names.
Proof. induction names as [|n names IH]; [reflexivity|]. cbn. rewrite IH. reflexivity. Qed.

Lemma zip_pad (names : list text) :
  forall row, (length row <= length names)%nat ->
  row_pairs names row =
  zip (KStr <$> names) (VStr <$> row) ++
  ((fun key => (KStr key, restval)) <$> drop (length row) names).
Proof.
  unfold row_pairs. induction names as [|n names IH]; intros row Hlen.
  - destruct row; [reflexivity | cbn in Hlen; lia].
  - destruct row as [|c row].
    + rewrite fmap_nil, zip_with_nil_r. cbn [length app drop]. rewrite Nat.sub_0_r.
      apply (zip_restval (n :: names)).
    + cbn [length] in Hlen. specialize (IH row ltac:(lia)). cbn. rewrite IH. reflexivity.
Qed.

(** A record that is no longer than the header. *)
Lemma row_dict_short (names row : list text) :
  (length row <= length names)%nat -> row_dict names row = dict_of (row_pairs names row).
Proof.
  intros Hlen. unfold row_dict. rewrite zip_pad by assumption.
  destruct (length names <? length row)%nat eqn:E1; [apply Nat.ltb_lt in E1; lia|].
  destruct (length row <? length names)%nat eqn:E2.
  - rewrite fold_restval_pairs. unfold dict_of. rewrite fold_left_app. reflexivity.
  - apply Nat.ltb_ge in E2. rewrite drop_ge by lia. rewrite fmap_nil, app_nil_r. reflexivity.
Qed.

Lemma row_pairs_keys (names row : list text) :
  (length row <= length names)%nat -> (row_pairs names row).*1 = KStr <$> names.
Proof.
  intros Hlen. unfold row_pairs. apply fst_zip.
  rewrite length_app, !length_fmap, length_replicate. lia.
Qed.

#[global] Instance KStr_inj : Inj (=) (=) KStr.
Proof. intros x y H. injection H as ->. reflexivity. Qed.

#[global] Instance VStr_inj : Inj (=) (=) VStr.
Proof. intros x y H. injection H as ->. reflexivity. Qed.

(** A record as long as the header, under column names that differ: the
    cells under their names, in the order of the header. *)
Lemma row_dict_exact (names row : list text) :
  NoDup names -> length row = length names ->
  row_dict names row = zip (KStr <$> names) (VStr <$> row).
Proof.
  intros Hnd Hlen. rewrite row_dict_short by lia. unfold row_pairs.
  rewrite Hlen, Nat.sub_diag. cbn [replicate]. rewrite app_nil_r.
  apply dict_of_NoDup. rewrite fst_zip by (rewrite !length_fmap; lia).
  apply NoDup_fmap_2; [apply _ | exact Hnd].
Qed.

(** A record longer than the header: the cells beyond the header go, as a
    list, under the key [None]. *)
Lemma row_dict_long (names row : list text) :
  (length names < length row)%nat ->
  row_dict names row =
  dict_setitem (dict_of (zip (KStr <$> names) (VStr <$> row))) KNone
               (VList (VStr <$> drop (length names) row)).
Proof.
  intros Hlen. unfold row_dict. apply Nat.ltb_lt in Hlen. rewrite Hlen. reflexivity.
Qed.

Lemma rows_of_well_formed (names : list text) (records : list (list cell)) :
  Forall record_ok records ->
  NoDup names ->
  Forall (fun r => length r = length names) records ->
  rows_of (names :: map cells_read records) =
  map (fun r => zip (KStr <$> names) (VStr <$> cells_read r)) records.
Proof.
  intros Hok Hnd Hlen. cbn [rows_of]. induction records as [|r records IH]; [reflexivity|].
  inversion Hok as [|? ? Hr Hrs]; subst. inversion Hlen as [|? ? Hl Hls]; subst.
  cbn [map]. assert (cells_read r <> []) as Hne.
  { unfold cells_read, contents. pose proof (record_ok_nonempty r Hr).
    destruct r; [contradiction | discriminate]. }
  destruct (cells_read r) as [|x xs] eqn:Hcr; [contradiction|].
  cbn [List.filter nonempty map]. rewrite <- Hcr, IH by assumption.
  rewrite row_dict_exact; [reflexivity | assumption |].
  unfold cells_read, contents. rewrite !length_map. exact Hl.
Qed.

(** ** Files *)

Lemma write_chunks_spec (fp : file) (chunks : list text) :
  forall w r d, fs w !! name fp = Some (Regular r true d) ->
  write_chunks fp chunks w =
  (Ok tt, {| fs := <[name fp := Regular r true (d ++ concat chunks)]> (fs w);
             events := events w ++ map (EWrite (name fp)) chunks;
             stdout := stdout w |}).
Proof.
  induction chunks as [|c chunks IH]; intros w r d Hw.
  - cbn [write_chunks concat map]. unfold ret. rewrite !app_nil_r.
    rewrite insert_id by assumption. destruct w; reflexivity.
  - cbn [write_chunks]. unfold bind at 1. unfold write at 1. cbn [log fs].
    rewrite Hw. unfold set_node. cbn [fs events stdout].
    erewrite IH; [|cbn [fs]; apply lookup_insert_eq].
    unfold log. cbn [fs events stdout concat map]. rewrite insert_insert_eq.
    rewrite <- !app_assoc. reflexivity.
Qed.

Lemma read_stage_ok (i : text) (w : world) (wi : bool) (data : text) (rows : list (list text)) :
  fs w !! i = Some (Regular true wi data) ->
  reader_rows parse_reset (text_lines (universal_newlines data)) = Ok rows ->
  with_open i R (fun csv_file => csv_reader <- DictReader csv_file ;; ret (list_ csv_reader)) w =
  (Ok (rows_of rows),
   {| fs := fs w; events := events w ++ [EOpen i R; EIter i; EClose i]; stdout := stdout w |}).
Proof.
  intros Hi Hrows. unfold with_open, bind, open_, DictReader, lines_of, ret, close.
  cbn [log fs name]. rewrite Hi. cbn [log fs name]. rewrite Hi, Hrows.
  rewrite list_rows_of. unfold log. cbn [fs events stdout]. rewrite <- !app_assoc. reflexivity.
Qed.

(** The tokenizer raises: the file is closed, and the exception goes on. *)
Lemma read_stage_error (i : text) (w : world) (wi : bool) (data : text) (e : exn) :
  fs w !! i = Some (Regular true wi data) ->
  reader_rows parse_reset (text_lines (universal_newlines data)) = Raise e ->
  with_open i R (fun csv_file => csv_reader <- DictReader csv_file ;; ret (list_ csv_reader)) w =
  (Raise e,
   {| fs := fs w; events := events w ++ [EOpen i R; EClose i]; stdout := stdout w |}).
Proof.
  intros Hi Hrows. unfold with_open, bind, open_, DictReader, lines_of, ret, close.
  cbn [log fs name]. rewrite Hi. cbn [log fs name]. rewrite Hi, Hrows.
  unfold log. cbn [fs events stdout]. rewrite <- !app_assoc. reflexivity.
Qed.

Lemma write_stage_ok (o : text) (w : world) (obj : value) (r : bool) :
  writable_at w o r ->
  with_open o W (fun json_file => json_dump obj json_file 4) w =
  (Ok tt,
   {| fs := <[o := Regular r true (json_text 4 obj)]> (fs w);
      events := events w ++ [EOpen o W] ++ map (EWrite o) (_iterencode 4 obj 0) ++ [EClose o];
      stdout := stdout w |}).
Proof.
  intros Ho. unfold with_open, bind, open_, json_dump, close. cbn [log fs name].
  assert (forall w1, fs w1 !! o = Some (Regular r true []) ->
            (let '(r0, w') := write_chunks {| name := o; fmode := W |} (_iterencode 4 obj 0) w1 in
             (r0, log (EClose o) w')) =
            (Ok tt, {| fs := <[o := Regular r true (json_text 4 obj)]> (fs w1);
                       events := events w1 ++ map (EWrite o) (_iterencode 4 obj 0) ++ [EClose o];
                       stdout := stdout w1 |})) as Hw.
  { intros w1 H1. erewrite write_chunks_spec; [|exact H1]. unfold log.
    cbn [fs events stdout name app]. rewrite <- app_assoc. reflexivity. }
  destruct Ho as [[Ho ->] | [d Ho]]; rewrite Ho.
  - match goal with |- (let '(_, _) := _ in _) = _ => idtac end.
    cbn [name]. rewrite Hw; [|apply lookup_insert_eq].
    unfold set_node, log. cbn [fs events stdout]. rewrite insert_insert_eq.
    rewrite <- !app_assoc. reflexivity.
  - cbn [name]. rewrite Hw; [|apply lookup_insert_eq].
    unfold set_node, log. cbn [fs events stdout]. rewrite insert_insert_eq.
    rewrite <- !app_assoc. reflexivity.
Qed.

Lemma writable_at_dec (w : world) (p : text) :
  (exists r, writable_at w p r) \/ (forall r, ~ writable_at w p r).
Proof.
  unfold writable_at. destruct (fs w !! p) as [[ro [] d | | |]|].
  - left. exists ro. right. eauto.
  - right. intros r [[H _] | [d' H]]; congruence.
  - right. intros r [[H _] | [d' H]]; congruence.
  - right. intros r [[H _] | [d' H]]; congruence.
  - right. intros r [[H _] | [d' H]]; congruence.
  - left. exists true. left. split; reflexivity.
Qed.

(** ** main *)

Ltac unfold_main :=
  unfold run, main, try_except, bind; cbn [length Nat.eqb negb nth].

Lemma run_usage (argv : list text) (w : world) :
  length argv <> 3%nat ->
  run argv w =
  (Exit 1, {| fs := fs w; events := events w; stdout := stdout w ++ [usage] |}).
Proof.
  intros H. unfold run, main.
  destruct (length argv =? 3)%nat eqn:E; [apply Nat.eqb_eq in E; contradiction|].
  reflexivity.
Qed.

(** The run that converts. *)
Lemma run_ok (prog i o : text) (w : world) (wi r : bool) (data : text)
      (rows : list (list text)) :
  fs w !! i = Some (Regular true wi data) ->
  reader_rows parse_reset (text_lines (universal_newlines data)) = Ok rows ->
  writable_at w o r ->
  run [prog; i; o] w =
  (Exit 0,
   {| fs := <[o := Regular r true (json_text 4 (VList (VDict <$> rows_of rows)))]> (fs w);
      events := events w ++
                conversion_events i o (_iterencode 4 (VList (VDict <$> rows_of rows)) 0);
      stdout := stdout w ++ [msg_success i o] |}).
Proof.
  intros Hi Hrows Ho. unfold_main.
  erewrite read_stage_ok by eassumption.
  erewrite write_stage_ok by exact Ho.
  unfold print, conversion_events. cbn [fs events stdout]. rewrite <- !app_assoc. reflexivity.
Qed.

(** The tokenizer raises: no handler is for its exception. *)
Lemma run_reader_error (prog i o : text) (w : world) (wi : bool) (data msg : text) :
  fs w !! i = Some (Regular true wi data) ->
  reader_rows parse_reset (text_lines (universal_newlines data)) = Raise (csv_Error msg) ->
  run [prog; i; o] w =
  (Traceback (csv_Error msg), after_ops w [EOpen i R; EClose i] []).
Proof.
  intros Hi Hrows. unfold_main. erewrite read_stage_error by eassumption.
  unfold after_ops. cbn [fs events stdout]. rewrite app_nil_r. reflexivity.
Qed.

(** The input cannot be opened. *)
Lemma run_input_absent (prog i o : text) (w : world) :
  absent w i ->
  run [prog; i; o] w =
  (Exit 1,
   {| fs := fs w; events := events w ++ [EOpen i R];
      stdout := stdout w ++ [msg_not_found i] |}).
Proof.
  intros Hi. unfold_main. unfold with_open, bind, open_. cbn [log fs].
  destruct Hi as [-> | [-> | ->]]; reflexivity.
Qed.

Lemma run_input_unreadable (prog i o : text) (w : world) (wi : bool) (data : text) :
  fs w !! i = Some (Regular false wi data) ->
  run [prog; i; o] w =
  (Exit 1,
   {| fs := fs w; events := events w ++ [EOpen i R];
      stdout := stdout w ++ [msg_permission i o] |}).
Proof.
  intros Hi. unfold_main. unfold with_open, bind, open_. cbn [log fs].
  rewrite Hi. reflexivity.
Qed.

Lemma run_input_directory (prog i o : text) (w : world) :
  fs w !! i = Some Directory ->
  fst (run [prog; i; o] w) = Traceback IsADirectoryError.
Proof.
  intros Hi. unfold_main. unfold with_open, bind, open_. cbn [log fs].
  rewrite Hi. reflexivity.
Qed.

(** The input is read, the output cannot be opened. *)
Lemma run_output_refused (prog i o : text) (w : world) (wi : bool) (data : text)
      (rows : list (list text)) :
  fs w !! i = Some (Regular true wi data) ->
  reader_rows parse_reset (text_lines (universal_newlines data)) = Ok rows ->
  (forall r, ~ writable_at w o r) ->
  exists e, open_ o W w = (Raise e, log (EOpen o W) w) /\
    run [prog; i; o] w =
    (match e with
     | FileNotFoundError | PermissionError => Exit 1
     | _ => Traceback e
     end,
     {| fs := fs w;
        events := events w ++ [EOpen i R; EIter i; EClose i; EOpen o W];
        stdout := stdout w ++
                  match e with
                  | FileNotFoundError => [msg_not_found i]
                  | PermissionError => [msg_permission i o]
                  | _ => []
                  end |}).
Proof.
  intros Hi Hrows Ho. unfold_main. erewrite read_stage_ok by eassumption.
  unfold with_open, bind, open_. cbn [log fs events stdout].
  destruct (fs w !! o) as [[ro [] d | | |]|] eqn:Hfs.
  - exfalso. apply (Ho ro). right. eauto.
  - exists PermissionError. split; [reflexivity|].
    unfold print, sys_exit, raise, log. cbn [fs events stdout]. rewrite <- !app_assoc.
    reflexivity.
  - exists IsADirectoryError. split; [reflexivity|].
    unfold log. cbn [fs events stdout]. rewrite <- !app_assoc, app_nil_r. reflexivity.
  - exists FileNotFoundError. split; [reflexivity|].
    unfold print, sys_exit, raise, log. cbn [fs events stdout]. rewrite <- !app_assoc.
    reflexivity.
  - exists PermissionError. split; [reflexivity|].
    unfold print, sys_exit, raise, log. cbn [fs events stdout]. rewrite <- !app_assoc.
    reflexivity.
  - exfalso. apply (Ho true). left. split; [assumption | reflexivity].
Qed.

Lemma msg_not_found_permission (input_csv output_json : text) :
  msg_not_found input_csv <> msg_permission input_csv output_json.
Proof. unfold msg_not_found, msg_permission. cbn [str app]. discriminate. Qed.

(** ** A text over the field limit *)

Lemma universal_newlines_id (v : text) : no_CR v -> universal_newlines v = v.
Proof.
  intros H. rewrite <- (app_nil_r v) at 1. rewrite universal_newlines_no_CR_app by assumption.
  cbn [universal_newlines]. apply app_nil_r.
Qed.

Lemma over_limit_text_plain : Forall plain over_limit_text.
Proof. apply Forall_replicate. unfold plain. split_and!; discriminate. Qed.

Lemma over_limit_text_over : over_limit over_limit_text.
Proof. unfold over_limit, over_limit_text. rewrite length_replicate. lia. Qed.

Lemma replicate_cons {A} (n : nat) (x : A) : replicate (S n) x = x :: replicate n x.
Proof. reflexivity. Qed.

Lemma over_limit_text_cons :
  over_limit_text = 98 :: replicate (Z.to_nat field_limit) 98.
Proof. unfold over_limit_text. exact (replicate_cons _ _). Qed.

Lemma long_quoted_cell_read :
  cells_read [long_quoted_cell] = [str "a," ++ over_limit_text].
Proof.
  unfold cells_read, contents, long_quoted_cell. cbn [map normalize_cell content quoted].
  rewrite universal_newlines_id; [reflexivity|].
  apply Forall_app. split; [repeat constructor; discriminate|].
  eapply Forall_impl; [exact over_limit_text_plain|]. intros c Hc. apply Hc.
Qed.

Lemma long_header_cell_read : cells_read [long_header_cell] = [over_limit_text].
Proof.
  unfold cells_read, contents, long_header_cell. cbn [map normalize_cell content quoted].
  rewrite (plain_no_CR over_limit_text) by apply over_limit_text_plain. reflexivity.
Qed.

Lemma long_header_record_ok : record_ok [long_header_cell].
Proof.
  split.
  - apply Forall_cons_2; [|constructor]. right. exact over_limit_text_plain.
  - change (render_record [long_header_cell]) with over_limit_text.
    rewrite over_limit_text_cons. discriminate.
Qed.

Lemma long_header_raises :
  reader_rows parse_reset (text_lines (universal_newlines long_header_csv)) =
  Raise (csv_Error field_limit_error).
Proof.
  apply reader_well_formed_over.
  - left. reflexivity.
  - apply Forall_cons_2; [exact long_header_record_ok | constructor].
  - apply Exists_cons. left. rewrite long_header_cell_read.
    apply Exists_cons. left. exact over_limit_text_over.
Qed.

(** * The claims *)

Ltac solve_plain :=
  repeat (constructor; [unfold plain; split_and!; discriminate|]); constructor.
Ltac solve_cell_ok := first [left; reflexivity | right; cbn; solve_plain].
Ltac solve_cells := repeat (constructor; [solve_cell_ok|]); constructor.
Ltac solve_record_ok := split; [solve_cells | vm_compute; discriminate].
Ltac solve_records := repeat (constructor; [solve_record_ok|]); constructor.
Ltac solve_within :=
  repeat (constructor; [repeat (constructor; [vm_compute; discriminate|]); constructor|]);
  constructor.

(** C1, as stated, fails: with a header that names two columns alike the
    object has one member for both, and the cell of the first of the two
    columns is nowhere in the output. *)
Lemma twice_named_column :
  twice_csv = render_csv [LF] true
    [ [ {| quoted := false; content := str "a" |};
        {| quoted := false; content := str "a" |} ];
      [ {| quoted := false; content := str "1" |};
        {| quoted := false; content := str "2" |} ] ] /\
  rows_of [[str "a"; str "a"]; [str "1"; str "2"]] = [[(KStr (str "a"), VStr (str "2"))]] /\
  fst (run argv0 twice_world) = Exit 0 /\
  output_of argv0 twice_world =
    Some (join_lines
            [txt "[";
             txt "    {";
             txt "        'a': '2'";
             txt "    }";
             txt "]"]) /\
  output_of argv0 twice_world <>
    Some (json_text 4 (VList [object_of [str "a"; str "a"] [str "1"; str "2"]])).
Proof. split_and!; vm_compute; (reflexivity || discriminate). Qed.

(** C1 (column fidelity and order), amended.  For every well-formed CSV
    input (cells quoted where they must be, no blank line, lines ended by
    LF, CR LF or CR, the last one with or without its ending) with no cell
    longer than the field limit of the csv module (131072 characters),
    whose header names are pairwise distinct and whose m records all have
    as many cells as the header, the program writes the JSON array of
    exactly m objects,
    in the order of the records; the i-th object has the members
    [h1: c_i1], ..., [hn: c_in] in the order of the header, [c_ij] being
    the cell of record i in column j as a string, line breaks inside it
    read as LF; and the run ends with status 0. *)
Theorem column_fidelity (prog input_csv output_json : text) (w : world) (wi r : bool)
        (eol : text) (final : bool) (header : list cell) (records : list (list cell)) :
  fs w !! input_csv = Some (Regular true wi (render_csv eol final (header :: records))) ->
  writable_at w output_json r ->
  is_eol eol ->
  Forall record_ok (header :: records) ->
  Forall (fun rec => Forall within_limit (cells_read rec)) (header :: records) ->
  NoDup (cells_read header) ->
  Forall (fun rec => length rec = length header) records ->
  exists objects,
    objects = map (fun rec => object_of (cells_read header) (cells_read rec)) records /\
    length objects = length records /\
    run [prog; input_csv; output_json] w =
    (Exit 0,
     {| fs := <[output_json := Regular r true (json_text 4 (VList objects))]> (fs w);
        events := events w ++
                  conversion_events input_csv output_json (_iterencode 4 (VList objects) 0);
        stdout := stdout w ++ [msg_success input_csv output_json] |}).
Proof.
  intros Hi Ho Heol Hok Hfit Hnd Hlen. eexists. split; [reflexivity|]. split.
  { rewrite length_map. reflexivity. }
  pose proof (reader_well_formed_within eol final (header :: records) Heol Hok Hfit) as Hrows.
  rewrite (run_ok prog input_csv output_json w wi r _ _ Hi Hrows Ho).
  cbn [map].
  inversion Hok as [|? ? Hh Hrs]; subst.
  rewrite rows_of_well_formed; [| assumption | assumption |].
  - unfold object_of. rewrite <- list_fmap_compose. reflexivity.
  - eapply Forall_impl; [exact Hlen|]. intros rec Hrec. cbn beta in Hrec.
    rewrite Hrec. unfold cells_read, contents. rewrite !length_map. reflexivity.
Qed.

Lemma column_fidelity_witness :
  fs scenario_world !! str "in.csv" =
    Some (Regular true true (render_csv [LF] true (scenario_header :: scenario_records))) /\
  writable_at scenario_world (str "out.json") true /\
  is_eol [LF] /\
  Forall record_ok (scenario_header :: scenario_records) /\
  Forall (fun rec => Forall within_limit (cells_read rec))
         (scenario_header :: scenario_records) /\
  NoDup (cells_read scenario_header) /\
  Forall (fun rec => length rec = length scenario_header) scenario_records /\
  exists objects,
    objects = map (fun rec => object_of (cells_read scenario_header) (cells_read rec))
                  scenario_records /\
    length objects = length scenario_records /\
    run argv0 scenario_world =
    (Exit 0,
     {| fs := <[str "out.json" := Regular true true (json_text 4 (VList objects))]>
                (fs scenario_world);
        events := events scenario_world ++
                  conversion_events (str "in.csv") (str "out.json")
                    (_iterencode 4 (VList objects) 0);
        stdout := stdout scenario_world ++ [msg_success (str "in.csv") (str "out.json")] |}).
Proof.
  assert (fs scenario_world !! str "in.csv" =
          Some (Regular true true (render_csv [LF] true (scenario_header :: scenario_records))))
    as Hi by (vm_compute; reflexivity).
  assert (writable_at scenario_world (str "out.json") true) as Ho
    by (left; split; reflexivity).
  assert (is_eol [LF]) as He by (left; reflexivity).
  assert (Forall record_ok (scenario_header :: scenario_records)) as Hr.
  { solve_records. }
  assert (Forall (fun rec => Forall within_limit (cells_read rec))
                 (scenario_header :: scenario_records)) as Hf.
  { solve_within. }
  assert (NoDup (cells_read scenario_header)) as Hn.
  { vm_compute. repeat constructor; rewrite ?elem_of_cons, ?elem_of_nil; intuition discriminate. }
  assert (Forall (fun rec => length rec = length scenario_header) scenario_records) as Hl
    by (repeat constructor).
  split_and!; [exact Hi | exact Ho | exact He | exact Hr | exact Hf | exact Hn | exact Hl |].
  exact (column_fidelity (str "csv_to_json.py") (str "in.csv") (str "out.json") scenario_world
           true true [LF] true scenario_header scenario_records Hi Ho He Hr Hf Hn Hl).
Defined.

(** C2, as stated, fails: a field between double quotes that holds a
    comma and is longer than the field limit of the csv module is not
    parsed as a cell; the tokenizer raises csv.Error. *)
Lemma long_quoted_field :
  record_ok [long_quoted_cell] /\
  quoted long_quoted_cell = true /\
  COMMA ∈ content long_quoted_cell /\
  reader_rows parse_reset
    (text_lines (universal_newlines (render_csv [LF] true [[long_quoted_cell]]))) =
  Raise (csv_Error field_limit_error).
Proof.
  assert (record_ok [long_quoted_cell]) as Hok.
  { split; [apply Forall_cons_2; [left; reflexivity | constructor] | discriminate]. }
  split_and!; [exact Hok | reflexivity | |].
  - unfold long_quoted_cell. cbn [content]. apply elem_of_app. left.
    apply elem_of_cons. right. apply elem_of_cons. left. reflexivity.
  - apply reader_well_formed_over.
    + left. reflexivity.
    + apply Forall_cons_2; [exact Hok | constructor].
    + apply Exists_cons. left. rewrite long_quoted_cell_read.
      apply Exists_cons. left. unfold over_limit. rewrite length_app.
      pose proof over_limit_text_over as H. unfold over_limit in H. lia.
Qed.

(** C2 (quoting), amended.  In a file of well-formed records with no cell
    longer than the field limit of the csv module (131072 characters),
    whatever its line ending, the tokenizer returns for every record one
    field per cell.  A cell written between double quotes is one field
    whatever it holds: commas, double quotes (written twice in the file)
    and line breaks; the field is the text of the cell, its line breaks
    read as LF.  A cell with no carriage return is returned as it is. *)
Theorem quoting (eol : text) (final : bool) (records : list (list cell)) :
  is_eol eol -> Forall record_ok records ->
  Forall (fun r => Forall within_limit (cells_read r)) records ->
  reader_rows parse_reset (text_lines (universal_newlines (render_csv eol final records))) =
    Ok (map cells_read records) /\
  Forall (fun r => length (cells_read r) = length r) records /\
  forall r c, r ∈ records -> c ∈ r -> no_CR (content c) -> content c ∈ cells_read r.
Proof.
  intros Heol Hrec Hfit. split_and!.
  - apply reader_well_formed_within; assumption.
  - apply Forall_forall. intros r _. unfold cells_read, contents. rewrite !length_map.
    reflexivity.
  - intros r c _ Hc Hcr. unfold cells_read, contents.
    rewrite <- (normalize_cell_id c Hcr) at 1.
    apply list_elem_of_In, in_map, in_map, list_elem_of_In. exact Hc.
Qed.

Lemma quoting_witness :
  is_eol [CR; LF] /\ Forall record_ok [quoted_record] /\
  Forall (fun r => Forall within_limit (cells_read r)) [quoted_record] /\
  reader_rows parse_reset
    (text_lines (universal_newlines (render_csv [CR; LF] true [quoted_record]))) =
    Ok (map cells_read [quoted_record]) /\
  Forall (fun r => length (cells_read r) = length r) [quoted_record] /\
  forall r c, r ∈ [quoted_record] -> c ∈ r -> no_CR (content c) -> content c ∈ cells_read r.
Proof.
  assert (is_eol [CR; LF]) as He by (right; left; reflexivity).
  assert (Forall record_ok [quoted_record]) as Hr.
  { solve_records. }
  assert (Forall (fun r => Forall within_limit (cells_read r)) [quoted_record]) as Hf.
  { solve_within. }
  split; [exact He|]. split; [exact Hr|]. split; [exact Hf|].
  exact (quoting [CR; LF] true [quoted_record] He Hr Hf).
Defined.

(** The fields of the quoted record, as the tokenizer returns them. *)
Example quoted_record_fields :
  render_record quoted_record =
    txt "'a,b','say ''hi''','two" ++ [LF] ++ txt "lines',c" /\
  reader_rows parse_reset
    (text_lines (universal_newlines (render_csv [CR; LF] true [quoted_record]))) =
    Ok [[str "a,b"; txt "say 'hi'"; str "two" ++ [LF] ++ str "lines"; str "c"]].
Proof. split; vm_compute; reflexivity. Qed.

(** C3, as stated, fails: for the concrete scenario the program does not
    write the text the specification displays (one object per line). *)
Lemma scenario_not_as_displayed :
  output_of argv0 scenario_world <> Some displayed_json.
Proof. vm_compute. discriminate. Qed.

(** C3 (concrete scenario), amended.  For the input [name,age],
    [Alice,30], [Bob,25] the run ends with status 0 and writes the JSON
    array of the two objects with 4-space indentation at every level: each
    object opens on a line of its own, and each of its members stands on a
    line of its own, indented by 8 spaces. *)
Theorem scenario_output :
  fst (run argv0 scenario_world) = Exit 0 /\
  output_of argv0 scenario_world = Some written_json.
Proof. split; vm_compute; reflexivity. Qed.

(** C4 (argument validation).  When [sys.argv] does not have exactly three
    entries (the program name and two arguments), the program prints the
    usage line and exits with status 1; it performs no file operation: the
    file system and the list of file operations are as before. *)
Theorem argument_validation (argv : list text) (w : world) :
  length argv <> 3%nat ->
  run argv w =
  (Exit 1, {| fs := fs w; events := events w; stdout := stdout w ++ [usage] |}).
Proof. apply run_usage. Qed.

Lemma argument_validation_witness :
  length [str "csv_to_json.py"; str "in.csv"] <> 3%nat /\
  run [str "csv_to_json.py"; str "in.csv"] scenario_world =
  (Exit 1, {| fs := fs scenario_world; events := events scenario_world;
              stdout := stdout scenario_world ++ [usage] |}).
Proof.
  split; [cbn; lia|]. apply (argument_validation [str "csv_to_json.py"; str "in.csv"]).
  cbn; lia.
Defined.

(** C5 (missing file).  When there is no file at the input path, the
    program exits with status 1 and the file system is unchanged: the
    only file operation is the failed [open] of the input, and no output
    file is created. *)
Theorem missing_input (prog input_csv output_json : text) (w : world) :
  absent w input_csv ->
  exists w',
    run [prog; input_csv; output_json] w = (Exit 1, w') /\
    fs w' = fs w /\
    fs w' !! output_json = fs w !! output_json /\
    events w' = events w ++ [EOpen input_csv R] /\
    stdout w' = stdout w ++ [msg_not_found input_csv].
Proof.
  intros H. eexists. split; [apply run_input_absent; exact H|].
  cbn [fs events stdout]. split_and!; reflexivity.
Qed.

Lemma missing_input_witness :
  absent (world_of []) (str "in.csv") /\
  exists w',
    run argv0 (world_of []) = (Exit 1, w') /\
    fs w' = fs (world_of []) /\
    fs w' !! str "out.json" = fs (world_of []) !! str "out.json" /\
    events w' = events (world_of []) ++ [EOpen (str "in.csv") R] /\
    stdout w' = stdout (world_of []) ++ [msg_not_found (str "in.csv")].
Proof.
  assert (absent (world_of []) (str "in.csv")) as H by (left; reflexivity).
  split; [exact H|].
  exact (missing_input (str "csv_to_json.py") (str "in.csv") (str "out.json") (world_of []) H).
Defined.

(** C6, as stated, fails: for a record longer than the header the object
    has a key the header does not have ([None], written ["null"]), whose
    value is a list and not a string. *)
Lemma long_row_extra_key :
  rows_of [[str "a"]; [str "1"; str "2"]] =
    [[(KStr (str "a"), VStr (str "1")); (KNone, VList [VStr (str "2")])]] /\
  dict_keys (row_dict [str "a"] [str "1"; str "2"]) <> [KStr (str "a")] /\
  dict_get (row_dict [str "a"] [str "1"; str "2"]) KNone = Some (VList [VStr (str "2")]) /\
  fst (run argv0 long_row_world) = Exit 0 /\
  output_of argv0 long_row_world =
    Some (join_lines
            [txt "[";
             txt "    {";
             txt "        'a': '1',";
             txt "        'null': [";
             txt "            '2'";
             txt "        ]";
             txt "    }";
             txt "]"]).
Proof. split_and!; vm_compute; (reflexivity || discriminate). Qed.

(** C6 (rows and header), amended.  For every record with at most as
    many fields as the header, the object built for it has exactly the
    key set of the header, each key once; every value is a cell of the
    record, as a string, or [None] (null); the columns beyond the last
    field of the record are present with [None]; and a cell whose column
    name does not come again later in the header is the value under that
    name. *)
Theorem row_object (names row : list text) :
  (length row <= length names)%nat ->
  (forall k, k ∈ dict_keys (row_dict names row) <-> k ∈ KStr <$> names) /\
  NoDup (dict_keys (row_dict names row)) /\
  (forall k v, dict_get (row_dict names row) k = Some v ->
               v = VNone \/ exists c, c ∈ row /\ v = VStr c) /\
  (forall j n, (length row <= j)%nat -> names !! j = Some n ->
               dict_get (row_dict names row) (KStr n) = Some VNone) /\
  (forall j n c, names !! j = Some n -> row !! j = Some c -> n ∉ drop (S j) names ->
                 dict_get (row_dict names row) (KStr n) = Some (VStr c)).
Proof.
  intros Hlen. rewrite row_dict_short by assumption.
  pose proof (row_pairs_keys names row Hlen) as Hkeys. split_and!.
  - intros k. unfold dict_of. rewrite fold_setitem_keys, Hkeys.
    unfold dict_keys. rewrite fmap_nil, elem_of_nil. tauto.
  - unfold dict_of. apply fold_setitem_NoDup. unfold dict_keys. rewrite fmap_nil.
    apply NoDup_nil_2.
  - intros k v Hget. apply dict_of_get_elem in Hget. unfold row_pairs in Hget.
    apply elem_of_zip_r in Hget. apply elem_of_app in Hget. destruct Hget as [Hv | Hv].
    + right. apply list_elem_of_fmap in Hv. destruct Hv as (c & -> & Hc). eauto.
    + left. apply elem_of_replicate_inv in Hv. exact Hv.
  - intros j n Hj Hn. rewrite zip_pad by assumption. apply dict_of_get_suffix.
    + rewrite <- list_fmap_compose. apply list_elem_of_fmap. exists n. split; [reflexivity|].
      apply list_elem_of_lookup. exists (j - length row)%nat. rewrite lookup_drop.
      replace (length row + (j - length row))%nat with j by lia. exact Hn.
    + intros v Hv. apply list_elem_of_fmap in Hv. destruct Hv as (x & Hx & _).
      injection Hx as _ ->. reflexivity.
  - intros j n c Hn Hc Hlater.
    assert (row_pairs names row !! j = Some (KStr n, VStr c)) as Hj.
    { unfold row_pairs. apply lookup_zip_with_Some. exists (KStr n), (VStr c).
      split_and!; [reflexivity | rewrite list_lookup_fmap, Hn; reflexivity |].
      apply lookup_app_l_Some. rewrite list_lookup_fmap, Hc. reflexivity. }
    rewrite <- (take_drop_middle _ _ _ Hj). apply dict_of_get_last.
    rewrite fmap_drop, Hkeys, <- fmap_drop. intros Hin.
    apply Hlater. apply (list_elem_of_fmap_inj_2 KStr) in Hin. exact Hin.
Qed.

Lemma row_object_witness :
  (length [str "Bob"] <= length [str "name"; str "age"])%nat /\
  (forall k, k ∈ dict_keys (row_dict [str "name"; str "age"] [str "Bob"]) <->
             k ∈ KStr <$> [str "name"; str "age"]) /\
  NoDup (dict_keys (row_dict [str "name"; str "age"] [str "Bob"])) /\
  (forall k v, dict_get (row_dict [str "name"; str "age"] [str "Bob"]) k = Some v ->
               v = VNone \/ exists c, c ∈ [str "Bob"] /\ v = VStr c) /\
  (forall j n, (length [str "Bob"] <= j)%nat -> [str "name"; str "age"] !! j = Some n ->
               dict_get (row_dict [str "name"; str "age"] [str "Bob"]) (KStr n) = Some VNone) /\
  (forall j n c, [str "name"; str "age"] !! j = Some n -> [str "Bob"] !! j = Some c ->
                 n ∉ drop (S j) [str "name"; str "age"] ->
                 dict_get (row_dict [str "name"; str "age"] [str "Bob"]) (KStr n) =
                 Some (VStr c)).
Proof.
  assert (length [str "Bob"] <= length [str "name"; str "age"])%nat as H by (cbn; lia).
  split; [exact H|]. exact (row_object [str "name"; str "age"] [str "Bob"] H).
Defined.

(** C7, as stated, fails: an input whose last field opens a quote and
    never closes it is converted, and the run ends with status 0. *)
Lemma unterminated_quote_accepted :
  fst (run argv0 unterminated_world) = Exit 0 /\
  exit_status (fst (run argv0 unterminated_world)) <> 1 /\
  stdout (snd (run argv0 unterminated_world)) =
    [msg_success (str "in.csv") (str "out.json")] /\
  output_of argv0 unterminated_world = Some unterminated_json.
Proof. split_and!; vm_compute; (reflexivity || discriminate). Qed.

(** C7 (malformed input), amended.  The program has no parse error to
    report.  Whatever text the input file holds, malformed or not, the
    reader either returns records (a quoted field left open ends with the
    input), and then, when the output path can be opened, the run writes
    their JSON text and ends with status 0; or it raises csv.Error for a
    field larger than the field limit (131072 characters), which no
    handler catches: the run ends in a traceback, having printed nothing
    and without opening the output.  The reader returns records for every
    text of at most 131072 characters. *)
Theorem no_parse_error (prog input_csv output_json : text) (w : world)
        (wi r : bool) (data : text) :
  fs w !! input_csv = Some (Regular true wi data) ->
  writable_at w output_json r ->
  ((exists rows,
      reader_rows parse_reset (text_lines (universal_newlines data)) = Ok rows /\
      run [prog; input_csv; output_json] w =
      (Exit 0,
       {| fs := <[output_json :=
                    Regular r true (json_text 4 (VList (VDict <$> rows_of rows)))]> (fs w);
          events := events w ++
                    conversion_events input_csv output_json
                      (_iterencode 4 (VList (VDict <$> rows_of rows)) 0);
          stdout := stdout w ++ [msg_success input_csv output_json] |})) \/
   (reader_rows parse_reset (text_lines (universal_newlines data)) =
      Raise (csv_Error field_limit_error) /\
    run [prog; input_csv; output_json] w =
    (Traceback (csv_Error field_limit_error),
     after_ops w [EOpen input_csv R; EClose input_csv] []))) /\
  (Z.of_nat (length data) <= field_limit ->
   exists rows, reader_rows parse_reset (text_lines (universal_newlines data)) = Ok rows).
Proof.
  intros Hi Ho. split; [|apply reader_short_file].
  destruct (reader_result data) as [[rows Hrows] | Hraise].
  - left. exists rows. split; [exact Hrows|].
    apply (run_ok prog input_csv output_json w wi r data rows Hi Hrows Ho).
  - right. split; [exact Hraise|].
    apply (run_reader_error prog input_csv output_json w wi data _ Hi Hraise).
Qed.

Lemma no_parse_error_witness :
  fs unterminated_world !! str "in.csv" = Some (Regular true true unterminated_csv) /\
  writable_at unterminated_world (str "out.json") true /\
  ((exists rows,
      reader_rows parse_reset (text_lines (universal_newlines unterminated_csv)) = Ok rows /\
      run argv0 unterminated_world =
      (Exit 0,
       {| fs := <[str "out.json" :=
                    Regular true true (json_text 4 (VList (VDict <$> rows_of rows)))]>
                  (fs unterminated_world);
          events := events unterminated_world ++
                    conversion_events (str "in.csv") (str "out.json")
                      (_iterencode 4 (VList (VDict <$> rows_of rows)) 0);
          stdout := stdout unterminated_world ++
                    [msg_success (str "in.csv") (str "out.json")] |})) \/
   (reader_rows parse_reset (text_lines (universal_newlines unterminated_csv)) =
      Raise (csv_Error field_limit_error) /\
    run argv0 unterminated_world =
    (Traceback (csv_Error field_limit_error),
     after_ops unterminated_world [EOpen (str "in.csv") R; EClose (str "in.csv")] []))) /\
  (Z.of_nat (length unterminated_csv) <= field_limit ->
   exists rows,
     reader_rows parse_reset (text_lines (universal_newlines unterminated_csv)) = Ok rows).
Proof.
  assert (fs unterminated_world !! str "in.csv" = Some (Regular true true unterminated_csv))
    as Hi by reflexivity.
  assert (writable_at unterminated_world (str "out.json") true) as Ho
    by (left; split; reflexivity).
  split; [exact Hi|]. split; [exact Ho|].
  exact (no_parse_error (str "csv_to_json.py") (str "in.csv") (str "out.json")
           unterminated_world true true unterminated_csv Hi Ho).
Defined.

(** C8, as stated, fails: the line printed for a refused permission is
    the same whether the input could not be read or the output could not
    be written; it does not tell which path failed. *)
Lemma permission_line_same_for_both_paths :
  fst (open_ (str "in.csv") R unreadable_input_world) = Raise PermissionError /\
  fst (open_ (str "in.csv") R unwritable_output_world) =
    Ok {| name := str "in.csv"; fmode := R |} /\
  fst (open_ (str "out.json") W unwritable_output_world) = Raise PermissionError /\
  stdout (snd (run argv0 unreadable_input_world)) =
    [msg_permission (str "in.csv") (str "out.json")] /\
  stdout (snd (run argv0 unwritable_output_world)) =
    [msg_permission (str "in.csv") (str "out.json")].
Proof. split_and!; vm_compute; reflexivity. Qed.

(** C8 (error lines), amended.  When the input file is missing, the
    program prints a line that names the input path ("not found"); when
    permission is refused, on the input or, once the reader has returned
    the records of the input, on the output, it prints another line, which
    names both paths.  The two lines differ, and in every one of these
    cases the program ends with status 1. *)
Theorem error_lines (prog input_csv output_json : text) (w : world) (f : failure) :
  fails w input_csv output_json f ->
  (exists w',
     run [prog; input_csv; output_json] w = (Exit 1, w') /\
     stdout w' = stdout w ++ [error_line f input_csv output_json]) /\
  error_line InputNotFound input_csv output_json <>
  error_line InputDenied input_csv output_json /\
  error_line InputDenied input_csv output_json =
  error_line OutputDenied input_csv output_json.
Proof.
  intros Hf. split_and!; [| apply msg_not_found_permission | reflexivity].
  destruct f; cbn [fails error_line] in *.
  - eexists. split; [apply run_input_absent; exact Hf | reflexivity].
  - destruct Hf as (wi & data & Hi). eexists.
    split; [apply (run_input_unreadable _ _ _ _ _ _ Hi) | reflexivity].
  - destruct Hf as [(wi & data & rows & Hi & Hrows) Ho].
    assert (forall r, ~ writable_at w output_json r) as Hno.
    { intros r [[H _] | [d H]]; destruct Ho as [Ho | (ro & d' & Ho)]; congruence. }
    destruct (run_output_refused prog input_csv output_json w wi data rows Hi Hrows Hno)
      as (e & Hopen & Hrun).
    assert (e = PermissionError) as ->.
    { unfold open_ in Hopen. cbn [log fs] in Hopen.
      destruct Ho as [Ho | (ro & d' & Ho)]; rewrite Ho in Hopen; congruence. }
    eexists. split; [exact Hrun | reflexivity].
Qed.

Lemma error_lines_witness :
  fails unwritable_output_world (str "in.csv") (str "out.json") OutputDenied /\
  (exists w',
     run argv0 unwritable_output_world = (Exit 1, w') /\
     stdout w' = stdout unwritable_output_world ++
                 [error_line OutputDenied (str "in.csv") (str "out.json")]) /\
  error_line InputNotFound (str "in.csv") (str "out.json") <>
  error_line InputDenied (str "in.csv") (str "out.json") /\
  error_line InputDenied (str "in.csv") (str "out.json") =
  error_line OutputDenied (str "in.csv") (str "out.json").
Proof.
  assert (fails unwritable_output_world (str "in.csv") (str "out.json") OutputDenied) as H.
  { split; [|right; exists true, []; reflexivity].
    exists true, scenario_csv,
      [[str "name"; str "age"]; [str "Alice"; str "30"]; [str "Bob"; str "25"]].
    split; [reflexivity | vm_compute; reflexivity]. }
  split; [exact H|].
  exact (error_lines (str "csv_to_json.py") (str "in.csv") (str "out.json")
           unwritable_output_world OutputDenied H).
Defined.

(** The slip next to C8: when the directory of the output path is
    missing, [open] of the output raises FileNotFoundError, and the line
    printed blames the input path, which was read without trouble. *)
Example missing_output_directory_blames_input :
  fst (open_ (str "out.json") W missing_directory_world) = Raise FileNotFoundError /\
  fst (run argv0 missing_directory_world) = Exit 1 /\
  stdout (snd (run argv0 missing_directory_world)) = [msg_not_found (str "in.csv")].
Proof. split_and!; vm_compute; reflexivity. Qed.

(** C9 (read before write).  In every run that ends with status 0, the
    input file is opened, read to its end, tokenized and closed before
    the output path is opened and before anything is written; the output
    then holds the JSON text of the rows read from the text the input had
    at the start.  Nothing in the statement needs the two paths to differ:
    with [input_csv = output_json] the file ends up holding the JSON text
    of its former CSV contents. *)
Theorem read_before_write (argv : list text) (w w' : world) :
  run argv w = (Exit 0, w') -> converted argv w w'.
Proof.
  intros Hrun.
  destruct (Nat.eq_dec (length argv) 3%nat) as [Hlen | Hlen];
    [| rewrite run_usage in Hrun by assumption; discriminate].
  destruct argv as [|prog [|i [|o [|x argv]]]]; try discriminate.
  destruct (fs w !! i) as [[[] wi data | | |]|] eqn:Hi.
  - destruct (reader_result data) as [[rows Hrows] | Hraise];
      [|rewrite (run_reader_error prog i o w wi data _ Hi Hraise) in Hrun; discriminate].
    destruct (writable_at_dec w o) as [[r Ho] | Ho].
    + rewrite (run_ok prog i o w wi r data rows Hi Hrows Ho) in Hrun.
      injection Hrun as <-. exists prog, i, o, wi, r, data, rows.
      cbn [fs events]. split_and!; try reflexivity; assumption.
    + destruct (run_output_refused prog i o w wi data rows Hi Hrows Ho) as (e & _ & He).
      rewrite He in Hrun. destruct e; discriminate.
  - rewrite (run_input_unreadable prog i o w wi data Hi) in Hrun. discriminate.
  - pose proof (run_input_directory prog i o w Hi) as H. rewrite Hrun in H. discriminate.
  - rewrite run_input_absent in Hrun by (right; left; exact Hi). discriminate.
  - rewrite run_input_absent in Hrun by (right; right; exact Hi). discriminate.
  - rewrite run_input_absent in Hrun by (left; exact Hi). discriminate.
Qed.

Lemma read_before_write_witness :
  run argv0 scenario_world = (Exit 0, snd (run argv0 scenario_world)) /\
  converted argv0 scenario_world (snd (run argv0 scenario_world)).
Proof.
  assert (run argv0 scenario_world = (Exit 0, snd (run argv0 scenario_world))) as H
    by (vm_compute; reflexivity).
  split; [exact H|].
  exact (read_before_write argv0 scenario_world (snd (run argv0 scenario_world)) H).
Defined.

(** C10, as stated, fails: for a file that holds a header line only,
    whose one column name is longer than the field limit of the csv
    module, the tokenizer raises csv.Error, which no handler catches; the
    run ends in a traceback with status 1 and writes nothing. *)
Lemma long_header_field :
  single_line long_header_csv /\
  writable_at long_header_world (str "out.json") true /\
  run argv0 long_header_world =
    (Traceback (csv_Error field_limit_error),
     after_ops long_header_world [EOpen (str "in.csv") R; EClose (str "in.csv")] []) /\
  exit_status (fst (run argv0 long_header_world)) = 1 /\
  stdout (snd (run argv0 long_header_world)) = [] /\
  fs (snd (run argv0 long_header_world)) !! str "out.json" = None.
Proof.
  assert (run argv0 long_header_world =
          (Traceback (csv_Error field_limit_error),
           after_ops long_header_world [EOpen (str "in.csv") R; EClose (str "in.csv")] []))
    as Hrun.
  { apply (run_reader_error _ _ _ _ true long_header_csv); [reflexivity|].
    exact long_header_raises. }
  split_and!; [| left; split; reflexivity | exact Hrun | rewrite Hrun; reflexivity
              | rewrite Hrun; reflexivity | rewrite Hrun; reflexivity].
  exists over_limit_text, [LF]. split_and!; [reflexivity | | right; left; reflexivity].
  eapply Forall_impl; [exact over_limit_text_plain|]. intros c (_ & _ & H1 & H2). auto.
Qed.

(** C10 (no data rows), amended.  When the input file is empty or holds
    one line only (the header, with or without its line ending), the
    reader returns its records (no field is longer than the field limit
    of 131072 characters) and the output path can be opened for writing,
    the run writes the empty JSON array [[]], prints the success line
    naming both paths and ends with status 0. *)
Theorem empty_or_header_only (prog input_csv output_json : text) (w : world)
        (wi r : bool) (data : text) (rows : list (list text)) :
  fs w !! input_csv = Some (Regular true wi data) ->
  single_line data ->
  reader_rows parse_reset (text_lines (universal_newlines data)) = Ok rows ->
  writable_at w output_json r ->
  run [prog; input_csv; output_json] w =
  (Exit 0,
   {| fs := <[output_json := Regular r true (str "[]")]> (fs w);
      events := events w ++ conversion_events input_csv output_json [str "[]"];
      stdout := stdout w ++ [msg_success input_csv output_json] |}).
Proof.
  intros Hi Hdata Hrows Ho.
  rewrite (run_ok prog input_csv output_json w wi r data rows Hi Hrows Ho).
  rewrite (single_line_rows data rows Hdata Hrows). reflexivity.
Qed.

Lemma empty_or_header_only_witness :
  fs header_only_world !! str "in.csv" = Some (Regular true true header_only_csv) /\
  single_line header_only_csv /\
  reader_rows parse_reset (text_lines (universal_newlines header_only_csv)) =
    Ok [[str "name"; str "age"]] /\
  writable_at header_only_world (str "out.json") true /\
  run argv0 header_only_world =
  (Exit 0,
   {| fs := <[str "out.json" := Regular true true (str "[]")]> (fs header_only_world);
      events := events header_only_world ++
                conversion_events (str "in.csv") (str "out.json") [str "[]"];
      stdout := stdout header_only_world ++ [msg_success (str "in.csv") (str "out.json")] |}).
Proof.
  assert (fs header_only_world !! str "in.csv" = Some (Regular true true header_only_csv))
    as Hi by reflexivity.
  assert (single_line header_only_csv) as Hs.
  { exists (str "name,age"), [LF]. split_and!; [reflexivity | | right; left; reflexivity].
    cbn. repeat constructor; discriminate. }
  assert (writable_at header_only_world (str "out.json") true) as Ho
    by (left; split; reflexivity).
  assert (reader_rows parse_reset (text_lines (universal_newlines header_only_csv)) =
          Ok [[str "name"; str "age"]]) as Hr by (vm_compute; reflexivity).
  split_and!; [exact Hi | exact Hs | exact Hr | exact Ho |].
  exact (empty_or_header_only (str "csv_to_json.py") (str "in.csv") (str "out.json")
           header_only_world true true header_only_csv _ Hi Hs Hr Ho).
Defined.

(** * Further properties of main *)

(** ** Every way a run ends *)

Lemma run_failed_output (prog i o : text) (w : world) (wi : bool) (data : text)
      (rows : list (list text)) (e : exn) :
  fs w !! i = Some (Regular true wi data) ->
  reader_rows parse_reset (text_lines (universal_newlines data)) = Ok rows ->
  fst (open_ o W w) = Raise e ->
  run [prog; i; o] w =
  (match e with
   | FileNotFoundError | PermissionError => Exit 1
   | SystemExit code => Exit code
   | _ => Traceback e
   end,
   after_ops w (read_then_open i o)
     match e with
     | FileNotFoundError => [msg_not_found i]
     | PermissionError => [msg_permission i o]
     | _ => []
     end).
Proof.
  intros Hi Hrows Hopen.
  unfold_main. erewrite read_stage_ok by eassumption.
  unfold with_open, bind, open_ in *. cbn [log fs events stdout] in *.
  unfold after_ops, read_then_open.
  destruct (fs w !! o) as [[ro [] d | | |]|]; cbn [fst] in Hopen; try discriminate;
    injection Hopen as <-; unfold print, sys_exit, raise, log; cbn [fs events stdout];
    rewrite <- ?app_assoc, ?app_nil_r; reflexivity.
Qed.

Lemma run_ending (prog i o : text) (w : world) :
  ending i o w (fst (run [prog; i; o] w)) (snd (run [prog; i; o] w)).
Proof.
  destruct (fs w !! i) as [[[] wi data | | |]|] eqn:Hi.
  - destruct (reader_result data) as [[rows Hrows] | Hraise].
    2:{ rewrite (run_reader_error prog i o w wi data _ Hi Hraise). cbn [fst snd].
        eapply end_reader_error; eauto. }
    destruct (fs w !! o) as [[ro [] d | | |]|] eqn:Ho.
    + rewrite (run_ok prog i o w wi ro data rows Hi Hrows) by (right; eauto).
      cbn [fst snd]. eapply end_converted; eauto. right. eauto.
    + rewrite (run_failed_output prog i o w wi data rows PermissionError Hi Hrows)
        by (unfold open_; cbn [log fs]; rewrite Ho; reflexivity).
      cbn [fst snd]. eapply end_output_denied; eauto.
    + rewrite (run_failed_output prog i o w wi data rows IsADirectoryError Hi Hrows)
        by (unfold open_; cbn [log fs]; rewrite Ho; reflexivity).
      cbn [fst snd]. eapply end_output_directory; eauto.
    + rewrite (run_failed_output prog i o w wi data rows FileNotFoundError Hi Hrows)
        by (unfold open_; cbn [log fs]; rewrite Ho; reflexivity).
      cbn [fst snd]. eapply end_output_not_found; eauto.
    + rewrite (run_failed_output prog i o w wi data rows PermissionError Hi Hrows)
        by (unfold open_; cbn [log fs]; rewrite Ho; reflexivity).
      cbn [fst snd]. eapply end_output_denied; eauto.
    + rewrite (run_ok prog i o w wi true data rows Hi Hrows) by (left; split; auto).
      cbn [fst snd]. eapply end_converted; eauto. left. split; auto.
  - rewrite (run_input_unreadable prog i o w wi data Hi). cbn [fst snd].
    eapply end_input_denied; eauto.
  - assert (run [prog; i; o] w = (Traceback IsADirectoryError, after_ops w [EOpen i R] []))
      as ->.
    { unfold_main. unfold with_open, bind, open_. cbn [log fs]. rewrite Hi.
      unfold after_ops, log. cbn [fs events stdout]. rewrite app_nil_r. reflexivity. }
    cbn [fst snd]. apply end_input_directory. exact Hi.
  - rewrite run_input_absent by (right; left; exact Hi). cbn [fst snd].
    apply end_input_not_found. right; left; exact Hi.
  - rewrite run_input_absent by (right; right; exact Hi). cbn [fst snd].
    apply end_input_not_found. right; right; exact Hi.
  - rewrite run_input_absent by (left; exact Hi). cbn [fst snd].
    apply end_input_not_found. left; exact Hi.
Qed.

Lemma argv_three (argv : list text) :
  length argv = 3%nat -> argv = [nth 0 argv []; nth 1 argv []; nth 2 argv []].
Proof. destruct argv as [|a [|b [|c [|d argv]]]]; try discriminate. reflexivity. Qed.


(** X3.  Every run either ends in a traceback, having printed nothing,
    or prints exactly one line: the success line, and then its status is
    0, or the usage line, the not-found line or the permission line, and
    then its status is 1. *)
Theorem one_line_or_traceback (argv : list text) (w : world) :
  (exists e, fst (run argv w) = Traceback e /\ stdout (snd (run argv w)) = stdout w) \/
  (exists line,
     stdout (snd (run argv w)) = stdout w ++ [line] /\
     ((fst (run argv w) = Exit 0 /\ line = msg_success (nth 1 argv []) (nth 2 argv [])) \/
      (fst (run argv w) = Exit 1 /\
       (line = usage \/ line = msg_not_found (nth 1 argv []) \/
        line = msg_permission (nth 1 argv []) (nth 2 argv []))))).
Proof.
  destruct (Nat.eq_dec (length argv) 3%nat) as [Hlen | Hlen].
  - rewrite (argv_three argv Hlen). cbn [nth].
    pose proof (run_ending (nth 0 argv []) (nth 1 argv []) (nth 2 argv []) w) as Hend.
    inversion Hend; cbn [after_ops stdout].
    + right. eexists. split; [reflexivity|]. right. split; [reflexivity | auto].
    + right. eexists. split; [reflexivity|]. right. split; [reflexivity | auto].
    + left. eexists. split; [reflexivity | apply app_nil_r].
    + left. eexists. split; [reflexivity | apply app_nil_r].
    + right. eexists. split; [reflexivity|]. right. split; [reflexivity | auto].
    + right. eexists. split; [reflexivity|]. right. split; [reflexivity | auto].
    + left. eexists. split; [reflexivity | apply app_nil_r].
    + right. eexists. split; [reflexivity|]. left. split; reflexivity.
  - rewrite run_usage by assumption. cbn [fst snd stdout]. right. eexists.
    split; [reflexivity|]. right. split; [reflexivity | auto].
Qed.

(** X5.  When the input is read (the reader returns its records) and the
    directory of the output path is missing, [open] of the output raises
    FileNotFoundError, which the first handler catches: the program
    prints that the input file was not found, and exits with status 1; no
    file is changed. *)
Theorem missing_output_directory (prog input_csv output_json : text) (w : world)
        (wi : bool) (data : text) (rows : list (list text)) :
  fs w !! input_csv = Some (Regular true wi data) ->
  reader_rows parse_reset (text_lines (universal_newlines data)) = Ok rows ->
  fs w !! output_json = Some NoDirectory ->
  run [prog; input_csv; output_json] w =
  (Exit 1,
   after_ops w (read_then_open input_csv output_json) [msg_not_found input_csv]).
Proof.
  intros Hi Hrows Ho. apply (run_failed_output prog input_csv output_json w wi data rows
                               FileNotFoundError Hi Hrows).
  unfold open_. cbn [log fs]. rewrite Ho. reflexivity.
Qed.

Lemma missing_output_directory_witness :
  fs missing_directory_world !! str "in.csv" = Some (Regular true true scenario_csv) /\
  reader_rows parse_reset (text_lines (universal_newlines scenario_csv)) =
    Ok [[str "name"; str "age"]; [str "Alice"; str "30"]; [str "Bob"; str "25"]] /\
  fs missing_directory_world !! str "out.json" = Some NoDirectory /\
  run argv0 missing_directory_world =
  (Exit 1,
   after_ops missing_directory_world (read_then_open (str "in.csv") (str "out.json"))
     [msg_not_found (str "in.csv")]).
Proof.
  assert (fs missing_directory_world !! str "in.csv" = Some (Regular true true scenario_csv))
    as Hi by reflexivity.
  assert (fs missing_directory_world !! str "out.json" = Some NoDirectory) as Ho
    by reflexivity.
  assert (reader_rows parse_reset (text_lines (universal_newlines scenario_csv)) =
          Ok [[str "name"; str "age"]; [str "Alice"; str "30"]; [str "Bob"; str "25"]])
    as Hr by (vm_compute; reflexivity).
  split; [exact Hi|]. split; [exact Hr|]. split; [exact Ho|].
  exact (missing_output_directory (str "csv_to_json.py") (str "in.csv") (str "out.json")
           missing_directory_world true scenario_csv _ Hi Hr Ho).
Defined.

(** X6.  A path that leads to a directory is reported by neither
    handler: when the input path is a directory, or when the input is
    read (the reader returns its records) and the output path is a
    directory, the run ends in the traceback of IsADirectoryError
    (status 1), prints nothing and changes no file. *)
Theorem directory_not_handled (prog input_csv output_json : text) (w : world) :
  fs w !! input_csv = Some Directory \/
  ((exists wi data rows,
      fs w !! input_csv = Some (Regular true wi data) /\
      reader_rows parse_reset (text_lines (universal_newlines data)) = Ok rows) /\
   fs w !! output_json = Some Directory) ->
  fst (run [prog; input_csv; output_json] w) = Traceback IsADirectoryError /\
  exit_status (fst (run [prog; input_csv; output_json] w)) = 1 /\
  stdout (snd (run [prog; input_csv; output_json] w)) = stdout w /\
  fs (snd (run [prog; input_csv; output_json] w)) = fs w.
Proof.
  intros H. pose proof (run_ending prog input_csv output_json w) as Hend.
  assert (forall r, fs w !! output_json = Some Directory ->
                    ~ writable_at w output_json r) as Hnw.
  { intros r Hd [[Hn _] | [d Hr]]; congruence. }
  unfold absent in Hend.
  inversion Hend as [Ha | wi d Hi | Hi | wi d msg Hi Hraise | wi d rows Hi Hrows Ho
                     | wi d rows Hi Hrows Ho | wi d rows Hi Hrows Ho
                     | wi r d rows Hi Hrows Ho];
    cbn [exit_status after_ops stdout fs]; rewrite ?app_nil_r;
    try (split_and!; reflexivity); exfalso;
    destruct H as [H | [(wi' & d' & rows' & H & Hr') Hd]];
    try (destruct Ha as [Ha | [Ha | Ha]]); try congruence.
  - destruct Ho as [Ho | (ro & d0 & Ho)]; congruence.
  - exact (Hnw r Hd Ho).
Qed.

Lemma directory_not_handled_witness :
  (fs directory_output_world !! str "in.csv" = Some Directory \/
   ((exists wi data rows,
       fs directory_output_world !! str "in.csv" = Some (Regular true wi data) /\
       reader_rows parse_reset (text_lines (universal_newlines data)) = Ok rows) /\
    fs directory_output_world !! str "out.json" = Some Directory)) /\
  fst (run argv0 directory_output_world) = Traceback IsADirectoryError /\
  exit_status (fst (run argv0 directory_output_world)) = 1 /\
  stdout (snd (run argv0 directory_output_world)) = stdout directory_output_world /\
  fs (snd (run argv0 directory_output_world)) = fs directory_output_world.
Proof.
  assert (fs directory_output_world !! str "in.csv" = Some Directory \/
          ((exists wi data rows,
              fs directory_output_world !! str "in.csv" = Some (Regular true wi data) /\
              reader_rows parse_reset (text_lines (universal_newlines data)) = Ok rows) /\
           fs directory_output_world !! str "out.json" = Some Directory)) as H.
  { right. split; [|reflexivity].
    exists true, scenario_csv,
      [[str "name"; str "age"]; [str "Alice"; str "30"]; [str "Bob"; str "25"]].
    split; [reflexivity | vm_compute; reflexivity]. }
  split; [exact H|].
  exact (directory_not_handled (str "csv_to_json.py") (str "in.csv") (str "out.json")
           directory_output_world H).
Defined.

(** ** Rows that do not fit the header *)

Lemma dict_get_app (d d' : dict) (k : key) :
  dict_get (d ++ d') k =
  match dict_get d k with
  | Some v => Some v
  | None => dict_get d' k
  end.
Proof.
  induction d as [|[k1 v1] d IH]; [reflexivity|]. cbn [app dict_get].
  destruct (decide (k = k1)); [reflexivity | exact IH].
Qed.

Lemma dict_of_zip_keys (names row : list text) (k : key) :
  k ∈ dict_keys (dict_of (zip (KStr <$> names) (VStr <$> row))) -> k ∈ KStr <$> names.
Proof.
  unfold dict_of. rewrite fold_setitem_keys. unfold dict_keys.
  rewrite fmap_nil, elem_of_nil. intros [[] | Hin].
  apply list_elem_of_fmap in Hin. destruct Hin as ([k' v'] & -> & Hin).
  apply elem_of_zip_l in Hin. exact Hin.
Qed.

Lemma dict_of_zip_get (names row : list text) (j : nat) (n c : text) :
  names !! j = Some n -> row !! j = Some c -> n ∉ drop (S j) names ->
  dict_get (dict_of (zip (KStr <$> names) (VStr <$> row))) (KStr n) = Some (VStr c).
Proof.
  intros Hn Hc Hlater.
  assert (zip (KStr <$> names) (VStr <$> row) !! j = Some (KStr n, VStr c)) as Hj.
  { apply lookup_zip_with_Some. exists (KStr n), (VStr c).
    split_and!; [reflexivity | rewrite list_lookup_fmap, Hn; reflexivity
                | rewrite list_lookup_fmap, Hc; reflexivity]. }
  rewrite <- (take_drop_middle _ _ _ Hj). apply dict_of_get_last.
  intros Hin. apply list_elem_of_fmap in Hin. destruct Hin as ([k' v'] & Hk & Hin).
  cbn [fst] in Hk. subst k'. apply list_elem_of_lookup in Hin. destruct Hin as [i Hi].
  rewrite lookup_drop in Hi. apply lookup_zip_with_Some in Hi.
  destruct Hi as (x & y & Hxy & Hx & _). injection Hxy as <- _.
  apply Hlater. apply list_elem_of_lookup. exists i. rewrite lookup_drop.
  rewrite list_lookup_fmap in Hx. destruct (names !! (S j + i)%nat) as [n'|] eqn:E;
    [|discriminate]. cbn in Hx. injection Hx as ->. reflexivity.
Qed.

(** X7.  A record with more fields than the header: the object gets the
    cells of the columns the header names and, after them, one more
    member, whose key is [None] and whose value is the list of the cells
    that are left; its keys are [None] and the names of the header; and a
    cell whose column name does not come again later in the header is the
    value under that name. *)
Theorem long_row (names row : list text) :
  (length names < length row)%nat ->
  row_dict names row =
    dict_of (zip (KStr <$> names) (VStr <$> row)) ++
    [(KNone, VList (VStr <$> drop (length names) row))] /\
  (forall k, k ∈ dict_keys (row_dict names row) <-> k = KNone \/ k ∈ KStr <$> names) /\
  dict_get (row_dict names row) KNone = Some (VList (VStr <$> drop (length names) row)) /\
  (forall j n c, names !! j = Some n -> row !! j = Some c -> n ∉ drop (S j) names ->
                 dict_get (row_dict names row) (KStr n) = Some (VStr c)).
Proof.
  intros Hlen. rewrite row_dict_long by assumption.
  assert (KNone ∉ dict_keys (dict_of (zip (KStr <$> names) (VStr <$> row)))) as Hfresh.
  { intros Hin. apply dict_of_zip_keys, list_elem_of_fmap in Hin.
    destruct Hin as (x & Hx & _). discriminate. }
  split_and!.
  - apply dict_setitem_fresh. exact Hfresh.
  - intros k. rewrite dict_keys_setitem. unfold dict_of at 1.
    rewrite fold_setitem_keys. unfold dict_keys at 1. rewrite fmap_nil, elem_of_nil.
    rewrite fst_zip by (rewrite !length_fmap; lia). tauto.
  - rewrite dict_get_setitem. destruct (decide (KNone = KNone)); [reflexivity | congruence].
  - intros j n c Hn Hc Hlater. rewrite dict_get_setitem.
    destruct (decide (KStr n = KNone)); [discriminate|].
    apply (dict_of_zip_get names row j n c Hn Hc Hlater).
Qed.

Lemma long_row_witness :
  (length [str "a"] < length [str "1"; str "2"; str "3"])%nat /\
  row_dict [str "a"] [str "1"; str "2"; str "3"] =
    dict_of (zip (KStr <$> [str "a"]) (VStr <$> [str "1"; str "2"; str "3"])) ++
    [(KNone, VList (VStr <$> drop (length [str "a"]) [str "1"; str "2"; str "3"]))] /\
  (forall k, k ∈ dict_keys (row_dict [str "a"] [str "1"; str "2"; str "3"]) <->
             k = KNone \/ k ∈ KStr <$> [str "a"]) /\
  dict_get (row_dict [str "a"] [str "1"; str "2"; str "3"]) KNone =
    Some (VList (VStr <$> drop (length [str "a"]) [str "1"; str "2"; str "3"])) /\
  (forall j n c, [str "a"] !! j = Some n -> [str "1"; str "2"; str "3"] !! j = Some c ->
                 n ∉ drop (S j) [str "a"] ->
                 dict_get (row_dict [str "a"] [str "1"; str "2"; str "3"]) (KStr n) =
                 Some (VStr c)).
Proof.
  assert (length [str "a"] < length [str "1"; str "2"; str "3"])%nat as H by (cbn; lia).
  split; [exact H|]. exact (long_row [str "a"] [str "1"; str "2"; str "3"] H).
Defined.

Lemma read_blank_line (t : text) :
  reader_text parse_reset false (LF :: t) =
  rbind (reader_text parse_reset false t) (fun rows => Ok ([] :: rows)).
Proof. reflexivity. Qed.

Lemma rows_of_no_names (rows : list (list text)) :
  rows_of ([] :: rows) =
  map (fun row => [(KNone, VList (VStr <$> row))]) (List.filter nonempty rows).
Proof.
  cbn [rows_of]. induction rows as [|row rows IH]; [reflexivity|].
  destruct row as [|c row]; cbn [List.filter nonempty map]; [exact IH|].
  rewrite IH. reflexivity.
Qed.

(** X8.  When the first line of the input is blank (an LF or a CR LF
    alone), the header is the empty record: there are no column names,
    and every record of the rest of the file that is not blank becomes an
    object with the single key [None], whose value is the list of its
    cells. *)
Theorem blank_first_line (eol data : text) (rows : list (list text)) :
  eol = [LF] \/ eol = [CR; LF] ->
  reader_rows parse_reset (text_lines (universal_newlines data)) = Ok rows ->
  reader_rows parse_reset (text_lines (universal_newlines (eol ++ data))) = Ok ([] :: rows) /\
  list_ {| _fieldnames := None; reader := [] :: rows |} =
    map (fun row => [(KNone, VList (VStr <$> row))]) (List.filter nonempty rows).
Proof.
  intros Heol Hrows. split; [|rewrite list_rows_of; apply rows_of_no_names].
  assert (universal_newlines (eol ++ data) = LF :: universal_newlines data) as ->.
  { destruct Heol as [-> | ->]; cbn [app].
    - apply universal_newlines_cons. discriminate.
    - rewrite universal_newlines_CR. change (LF =? LF) with true. cbv iota.
      apply universal_newlines_cons. discriminate. }
  apply reader_rows_of_nolimit.
  - apply reader_rows_to_nolimit in Hrows. rewrite reader_rows_text in *.
    rewrite read_blank_line, Hrows. reflexivity.
  - apply Forall_cons_2; [constructor|]. eapply reader_rows_fields_within. exact Hrows.
Qed.

Lemma blank_first_line_witness :
  ([CR; LF] = [LF] \/ [CR; LF] = [CR; LF]) /\
  reader_rows parse_reset (text_lines (universal_newlines scenario_csv)) =
    Ok [[str "name"; str "age"]; [str "Alice"; str "30"]; [str "Bob"; str "25"]] /\
  reader_rows parse_reset (text_lines (universal_newlines ([CR; LF] ++ scenario_csv))) =
    Ok ([] :: [[str "name"; str "age"]; [str "Alice"; str "30"]; [str "Bob"; str "25"]]) /\
  list_ {| _fieldnames := None;
           reader := [] :: [[str "name"; str "age"]; [str "Alice"; str "30"];
                            [str "Bob"; str "25"]] |} =
    map (fun row => [(KNone, VList (VStr <$> row))])
        (List.filter nonempty
           [[str "name"; str "age"]; [str "Alice"; str "30"]; [str "Bob"; str "25"]]).
Proof.
  assert ([CR; LF] = [LF] \/ [CR; LF] = [CR; LF]) as He by (right; reflexivity).
  assert (reader_rows parse_reset (text_lines (universal_newlines scenario_csv)) =
          Ok [[str "name"; str "age"]; [str "Alice"; str "30"]; [str "Bob"; str "25"]])
    as Hr by (vm_compute; reflexivity).
  split; [exact He|]. split; [exact Hr|].
  exact (blank_first_line [CR; LF] scenario_csv _ He Hr).
Defined.

(** X9.  The output never has more objects than the input has lines
    after the first: every record takes at least one line, and the first
    record gives the column names. *)
Theorem objects_bounded_by_lines (data : text) (rows : list (list text)) :
  reader_rows parse_reset (text_lines (universal_newlines data)) = Ok rows ->
  (length (list_ {| _fieldnames := None; reader := rows |}) <=
   length (text_lines (universal_newlines data)) - 1)%nat.
Proof.
  intros Hrows. rewrite list_rows_of. destruct (reader_rows_count _ _ _ Hrows) as [_ H].
  specialize (H (or_intror eq_refl)).
  destruct rows as [|names rest]; cbn [rows_of length] in *; [lia|].
  rewrite length_map. pose proof (filter_length_le nonempty rest). lia.
Qed.

Lemma objects_bounded_by_lines_witness :
  reader_rows parse_reset (text_lines (universal_newlines scenario_csv)) =
    Ok [[str "name"; str "age"]; [str "Alice"; str "30"]; [str "Bob"; str "25"]] /\
  (length (list_ {| _fieldnames := None;
                    reader := [[str "name"; str "age"]; [str "Alice"; str "30"];
                               [str "Bob"; str "25"]] |}) <=
   length (text_lines (universal_newlines scenario_csv)) - 1)%nat.
Proof.
  assert (reader_rows parse_reset (text_lines (universal_newlines scenario_csv)) =
          Ok [[str "name"; str "age"]; [str "Alice"; str "30"]; [str "Bob"; str "25"]])
    as Hr by (vm_compute; reflexivity).
  split; [exact Hr|]. exact (objects_bounded_by_lines scenario_csv _ Hr).
Defined.

(** ** What the fields and the output are made of *)

Section Characters.

Variable P : Z -> Prop.

(** The fields read so far and the field being read hold characters
    that satisfy [P]. *)
Let held (self : ReaderObj) : Prop :=
  Forall (Forall P) (fields self) /\ Forall P (field self).

Lemma held_process_char (self self' : ReaderObj) (c : input) :
  (forall ch, c = Chr ch -> P ch) -> held self ->
  parse_process_char_nolimit self c = Ok self' -> held self'.
Proof.
  intros Hc [Hfs Hf]. unfold held. destruct self as [st fs f]. cbn [fields field] in *.
  assert (Forall (Forall P) (fs ++ [f])) as Hsave
    by (apply Forall_app; split; [assumption | constructor; [assumption | constructor]]).
  assert (forall ch, c = Chr ch -> Forall P (f ++ [ch])) as Hadd
    by (intros ch ->; apply Forall_app; split;
        [assumption | constructor; [apply Hc; reflexivity | constructor]]).
  unfold parse_process_char_nolimit, start_field_nolimit, parse_save_field, parse_add_char_nolimit, set_state.
  cbn [state fields field].
  destruct st, c as [ch|]; try specialize (Hadd ch eq_refl);
    repeat match goal with
           | |- context [if ?b then _ else _] => destruct b
           end;
    intros H; try discriminate; injection H as <-; cbn [fields field];
    split; first [assumption | constructor].
Qed.

Lemma held_end_of_line (self : ReaderObj) (k : ReaderObj -> result (list (list text)))
      (rows : list (list text)) :
  (forall s rows', held s -> k s = Ok rows' -> Forall (Forall (Forall P)) rows') ->
  held self -> end_of_line self k = Ok rows -> Forall (Forall (Forall P)) rows.
Proof.
  intros Hk Hself. unfold end_of_line.
  destruct (parse_process_char_nolimit self EOL) as [s|e] eqn:Hs; [|discriminate]. cbn [rbind].
  pose proof (held_process_char self s EOL ltac:(discriminate) Hself Hs) as [Hfs Hf].
  destruct (is_START_RECORD (state s)).
  - destruct (k parse_reset) as [rows'|e] eqn:Hrows; [|discriminate]. cbn [rbind].
    intros H. injection H as <-. constructor; [exact Hfs|].
    apply (Hk parse_reset rows'); [split; constructor | exact Hrows].
  - apply Hk. split; assumption.
Qed.

Lemma held_at_eof (self : ReaderObj) (rows : list (list text)) :
  held self -> at_eof self = Ok rows -> Forall (Forall (Forall P)) rows.
Proof.
  intros [Hfs Hf]. unfold at_eof. destruct (_ || _); intros H; injection H as <-;
    repeat constructor. cbn [parse_save_field fields].
  apply Forall_app. split; [assumption | constructor; [assumption | constructor]].
Qed.

Lemma held_reader_text (t : text) :
  Forall P t -> forall self b rows,
  held self -> reader_text self b t = Ok rows -> Forall (Forall (Forall P)) rows.
Proof.
  induction 1 as [|c t Hc Ht IH]; intros self b rows Hself.
  - cbn [reader_text]. destruct b; [|apply held_at_eof; assumption].
    apply held_end_of_line; [|assumption]. intros s rows'. apply held_at_eof.
  - rewrite reader_text_cons.
    destruct (parse_process_char_nolimit self (Chr c)) as [s|e] eqn:Hs; [|discriminate].
    cbn [rbind].
    assert (held s) as Hheld.
    { apply (held_process_char self s (Chr c)); [|assumption|assumption].
      intros ch [= <-]. exact Hc. }
    destruct (c =? LF).
    + apply held_end_of_line; [|assumption]. intros s' rows' Hs'. apply IH. exact Hs'.
    + apply IH. exact Hheld.
Qed.

End Characters.

Lemma universal_newlines_elem (c : Z) (t : text) :
  c ∈ universal_newlines t -> c ∈ t \/ c = LF.
Proof.
  revert c. assert (forall t c, (c ∈ universal_newlines t -> c ∈ t \/ c = LF) /\
                              forall x, c ∈ universal_newlines (x :: t) -> c ∈ x :: t \/ c = LF)
    as H; [|intros c; apply H].
  clear t. induction t as [|y t IH]; intros c.
  - split; [cbn; rewrite elem_of_nil; tauto|]. intros x. cbn [universal_newlines].
    destruct (x =? CR); rewrite !elem_of_cons, !elem_of_nil; tauto.
  - destruct (IH c) as [IH1 IH2]. split; [apply IH2|]. intros x.
    cbn [universal_newlines]. destruct (x =? CR).
    + rewrite elem_of_cons. intros [-> | Hin]; [tauto|].
      destruct (y =? LF); [apply IH1 in Hin | apply IH2 in Hin];
        rewrite !elem_of_cons in *; tauto.
    + rewrite elem_of_cons. intros [-> | Hin]; [left; left|].
      apply IH2 in Hin. rewrite !elem_of_cons in *. tauto.
Qed.

(** X10.  The tokenizer makes up no character: every character of every
    field it returns is a character of the file, or the LF a line break
    of the file was read as; and no field holds a carriage return. *)
Theorem fields_from_the_file (data : text) (rows : list (list text)) :
  reader_rows parse_reset (text_lines (universal_newlines data)) = Ok rows ->
  Forall (Forall (Forall (fun c => (c ∈ data \/ c = LF) /\ c <> CR))) rows.
Proof.
  intros Hrows. apply reader_rows_to_nolimit in Hrows. rewrite reader_rows_text in Hrows.
  eapply (held_reader_text _ (universal_newlines data)); [| |exact Hrows].
  - apply Forall_forall. intros c Hc. split; [apply universal_newlines_elem; exact Hc|].
    pose proof (universal_newlines_no_CR data) as Hcr. unfold no_CR in Hcr.
    rewrite Forall_forall in Hcr. apply Hcr. exact Hc.
  - split; constructor.
Qed.

Lemma fields_from_the_file_witness :
  reader_rows parse_reset
    (text_lines (universal_newlines (render_csv [CR; LF] true [quoted_record]))) =
    Ok [[str "a,b"; txt "say 'hi'"; str "two" ++ [LF] ++ str "lines"; str "c"]] /\
  Forall (Forall (Forall (fun c => (c ∈ render_csv [CR; LF] true [quoted_record] \/ c = LF) /\
                                   c <> CR)))
         [[str "a,b"; txt "say 'hi'"; str "two" ++ [LF] ++ str "lines"; str "c"]].
Proof.
  assert (reader_rows parse_reset
            (text_lines (universal_newlines (render_csv [CR; LF] true [quoted_record]))) =
          Ok [[str "a,b"; txt "say 'hi'"; str "two" ++ [LF] ++ str "lines"; str "c"]])
    as Hr by (vm_compute; reflexivity).
  split; [exact Hr|].
  exact (fields_from_the_file (render_csv [CR; LF] true [quoted_record]) _ Hr).
Defined.

Ltac printable := right; cbn; unfold BACKSLASH, DQUOTE, COMMA, SPACE in *; lia.
Ltac each_char tac := repeat (apply Forall_cons_2; [tac|]); apply Forall_nil_2.

Lemma hexdigit_json_char (n : Z) : json_char (hexdigit (Z.land n 15)).
Proof.
  assert (0 <= Z.land n 15 <= 15) as H.
  { change 15 with (Z.ones 4). rewrite Z.land_ones by lia.
    pose proof (Z.mod_pos_bound n (2 ^ 4) ltac:(lia)). change (Z.ones 4) with 15. lia. }
  unfold json_char, hexdigit. destruct (Z.land n 15 <? 10) eqn:E; right; lia.
Qed.

Lemma hex4_json_char (n : Z) : Forall json_char (hex4 n).
Proof. unfold hex4. each_char ltac:(apply hexdigit_json_char). Qed.

Lemma escape_char_json_char (c : Z) : Forall json_char (escape_char c).
Proof.
  assert (forall s, Forall json_char (str "\u" ++ hex4 s)) as Hu.
  { intros s. apply Forall_app. split; [|apply hex4_json_char]. cbn [str]. each_char printable. }
  unfold escape_char.
  repeat match goal with
         | |- context [if ?b then _ else _] => destruct b eqn:?
         end;
    try (cbn [str]; each_char printable).
  all: try match goal with
           | H : (SPACE <=? ?x) && (?x <=? 126) = true |- Forall json_char [?x] =>
               apply andb_true_iff in H; destruct H as [H1 H2]; each_char printable
           end.
  all: try apply Hu.
  rewrite app_assoc. apply Forall_app. split; [apply Hu|].
  apply Forall_app. split; [|apply hex4_json_char]. cbn [str]. each_char printable.
Qed.

Lemma encode_json_char (s : text) : Forall json_char (py_encode_basestring_ascii s).
Proof.
  unfold py_encode_basestring_ascii. apply Forall_app. split; [each_char printable|].
  apply Forall_app. split; [|each_char printable].
  induction s as [|c s IH]; [constructor|]. cbn [map concat].
  apply Forall_app. split; [apply escape_char_json_char | exact IH].
Qed.

Lemma newline_indent_json_char (indent level : nat) :
  Forall json_char (newline_indent indent level).
Proof.
  unfold newline_indent. apply Forall_cons_2; [left; reflexivity|].
  induction level as [|level IH]; [constructor|]. cbn [replicate concat].
  apply Forall_app. split; [|exact IH]. clear IH.
  induction indent as [|indent IHi]; [constructor|]. cbn [replicate].
  apply Forall_cons_2; [printable | exact IHi].
Qed.

Lemma encode_key_json_char (k : key) : Forall json_char (encode_key k).
Proof. destruct k; apply encode_json_char. Qed.

Lemma str_json_char (s : string) :
  forallb (fun c => (32 <=? c) && (c <=? 126)) (str s) = true -> Forall json_char (str s).
Proof.
  intros H. apply Forall_forall. intros c Hc. apply list_elem_of_In in Hc.
  apply (proj1 (forallb_forall _ _) H) in Hc. right. lia.
Qed.

Ltac json_chars :=
  repeat first
    [ apply Forall_nil_2
    | (apply str_json_char; reflexivity)
    | apply encode_json_char
    | apply encode_key_json_char
    | apply newline_indent_json_char
    | assumption
    | (apply Forall_app; split)
    | (apply Forall_cons_2; [printable|]) ].

Ltac split_chunks := repeat (rewrite concat_app; apply Forall_app; split).
Ltac chunks_ok :=
  cbn [concat app]; rewrite ?app_nil_r; unfold key_separator, item_separator; json_chars.

(** Whatever value it is given, the encoder yields printable ASCII
    characters only, and LF between the lines of the layout. *)
Lemma iterencode_json_char (indent : nat) (o : value) (level : nat) :
  Forall json_char (concat (_iterencode indent o level)).
Proof.
  revert level. induction o as [| s | l IH | d IH] using value_induction; intros level.
  - cbn [_iterencode]. chunks_ok.
  - cbn [_iterencode]. chunks_ok.
  - cbn [_iterencode]. destruct l as [|v0 l0]; [chunks_ok|].
    apply Forall_cons in IH. destruct IH as [Hv0 Hl0].
    assert (Forall json_char (item_separator ++ newline_indent indent (S level))) as Hsep
      by chunks_ok.
    assert (Forall json_char (str "[" ++ newline_indent indent (S level))) as Hbuf
      by chunks_ok.
    split_chunks.
    + destruct v0; chunks_ok; apply Hv0.
    + induction Hl0 as [|v l Hv Hl IHl]; cbv fix match beta; [constructor|].
      split_chunks; [|exact IHl]. destruct v; chunks_ok; apply Hv.
    + chunks_ok.
  - cbn [_iterencode]. destruct d as [|[k0 v0] d0]; [chunks_ok|].
    apply Forall_cons in IH. destruct IH as [Hv0 Hd0]. cbn [snd] in Hv0.
    assert (Forall json_char (item_separator ++ newline_indent indent (S level))) as Hsep
      by chunks_ok.
    split_chunks.
    + chunks_ok.
    + chunks_ok.
    + chunks_ok.
    + destruct v0; chunks_ok; apply Hv0.
    + induction Hd0 as [|[k v] d Hv Hd IHd]; cbv fix match beta; [constructor|].
      cbn [snd] in Hv. split_chunks; [chunks_ok | chunks_ok | | exact IHd].
      destruct v; chunks_ok; apply Hv.
    + chunks_ok.
Qed.

(** X11.  After a run that ends with status 0 the output path leads to a
    writable file that holds printable ASCII characters only, and LF
    between the lines of the layout, whatever characters the input has: a
    character outside this range in a cell reaches the output as an
    escape. *)
Theorem output_is_ascii (argv : list text) (w : world) :
  fst (run argv w) = Exit 0 ->
  exists r out, fs (snd (run argv w)) !! nth 2 argv [] = Some (Regular r true out) /\
                Forall json_char out.
Proof.
  destruct (Nat.eq_dec (length argv) 3%nat) as [Hlen | Hlen].
  - rewrite (argv_three argv Hlen). cbn [nth].
    pose proof (run_ending (nth 0 argv []) (nth 1 argv []) (nth 2 argv []) w) as Hend.
    inversion Hend as [ | | | | | | | wi r data rows Hi Hrows Ho Hout Hw];
      intros Hexit; try congruence.
    exists r, (json_text 4 (VList (VDict <$> rows_of rows))). cbn [fs].
    rewrite lookup_insert_eq. split; [reflexivity|]. apply iterencode_json_char.
  - rewrite run_usage by assumption. cbn [fst]. discriminate.
Qed.

Lemma output_is_ascii_witness :
  fst (run argv0 scenario_world) = Exit 0 /\
  exists r out, fs (snd (run argv0 scenario_world)) !! nth 2 argv0 [] =
                  Some (Regular r true out) /\
                Forall json_char out.
Proof.
  assert (fst (run argv0 scenario_world) = Exit 0) as H by (vm_compute; reflexivity).
  split; [exact H|]. exact (output_is_ascii argv0 scenario_world H).
Defined.

(** ** Lines with no quoted field *)

Lemma chomp_cons (c : Z) (l : text) : l <> [] -> chomp (c :: l) = c :: chomp l.
Proof. destruct l; [congruence | reflexivity]. Qed.

Lemma text_lines_shape (t : text) :
  no_CR t ->
  Forall (fun line => (line = chomp line ++ [LF] \/ (line = chomp line /\ line <> [])) /\
                      Forall (fun c => c <> LF /\ c <> CR) (chomp line))
         (text_lines t).
Proof.
  induction 1 as [|c t Hc Ht IH]; [constructor|]. rewrite text_lines_cons.
  destruct (c =? LF) eqn:Hlf.
  - apply Z.eqb_eq in Hlf. subst c. apply Forall_cons_2; [|exact IH].
    cbn [chomp]. rewrite Z.eqb_refl. split; [left; reflexivity | constructor].
  - apply Z.eqb_neq in Hlf. destruct (text_lines t) as [|l ls].
    + apply Forall_cons_2; [|constructor]. cbn [chomp].
      destruct (c =? LF) eqn:E; [apply Z.eqb_eq in E; contradiction|].
      split; [right; split; [reflexivity | discriminate]|].
      apply Forall_cons_2; [split; assumption | constructor].
    + apply Forall_cons in IH. destruct IH as [[Hshape Hbody] Hls].
      apply Forall_cons_2; [|exact Hls].
      assert (l <> []) as Hne by (destruct Hshape as [H | [_ H]]; [|exact H];
                                  rewrite H; destruct (chomp l); discriminate).
      rewrite chomp_cons by assumption. split.
      * destruct Hshape as [H | [H _]]; [left | right; split; [|discriminate]];
          cbn [app]; rewrite <- H; reflexivity.
      * apply Forall_cons_2; [split; assumption | exact Hbody].
Qed.

(** The rest of a line, from the start of a field or from inside one. *)
Lemma feed_unquoted (body tail : text) :
  Forall (fun c => c <> LF /\ c <> CR) body -> tail = [LF] \/ tail = [] ->
  forall (at_start : bool) fs f,
  no_opening_quote at_start body -> (at_start = true -> f = []) ->
  feed_line_nolimit {| state := if at_start then START_FIELD else IN_FIELD;
               fields := fs; field := f |} (body ++ tail) =
  Ok {| state := START_RECORD; fields := fs ++ split_commas_from f body; field := [] |}.
Proof.
  intros Hbody Htail. induction Hbody as [|c body [Hlf Hcr] Hbody IH];
    intros at_start fs f Hq Hf.
  - cbn [app split_commas_from]. destruct Htail as [-> | ->], at_start; reflexivity.
  - cbn [no_opening_quote] in Hq. destruct Hq as [Hq Hrest].
    assert (is_newline c = false) as Hn
      by (unfold is_newline; apply orb_false_iff; split; apply Z.eqb_neq; assumption).
    cbn [app feed_line_nolimit split_commas_from].
    destruct (c =? COMMA) eqn:Hcomma.
    + assert ((c =? DQUOTE) = false) as Hdq
        by (apply Z.eqb_eq in Hcomma; subst c; reflexivity).
      pose proof (IH true (fs ++ [f]) [] Hrest (fun _ => eq_refl)) as Hnext.
      cbv iota in Hnext. rewrite <- app_assoc in Hnext. cbn [app] in Hnext.
      destruct at_start; unfold parse_process_char_nolimit, start_field_nolimit; cbn [state];
        rewrite Hn, ?Hdq, Hcomma; unfold parse_save_field, set_state;
        cbn [state fields field rbind]; exact Hnext.
    + destruct at_start.
      * rewrite (Hf eq_refl).
        assert ((c =? DQUOTE) = false) as Hdq by (apply Z.eqb_neq; auto).
        pose proof (IH false fs ([] ++ [c]) Hrest ltac:(discriminate)) as Hnext.
        cbv iota in Hnext. unfold parse_process_char_nolimit, start_field_nolimit. cbn [state].
        rewrite Hn, Hdq, Hcomma. unfold parse_add_char_nolimit, set_state.
        cbn [state fields field rbind]. exact Hnext.
      * pose proof (IH false fs (f ++ [c]) Hrest ltac:(discriminate)) as Hnext.
        cbv iota in Hnext. unfold parse_process_char_nolimit. cbn [state].
        rewrite Hn, Hcomma. unfold parse_add_char_nolimit. cbn [state fields field rbind].
        exact Hnext.
Qed.

Lemma feed_unquoted_line (line : text) :
  (line = chomp line ++ [LF] \/ (line = chomp line /\ line <> [])) ->
  Forall (fun c => c <> LF /\ c <> CR) (chomp line) ->
  no_opening_quote true (chomp line) ->
  feed_line_nolimit parse_reset line =
  Ok {| state := START_RECORD; fields := line_fields line; field := [] |}.
Proof.
  intros Hshape Hbody Hq. unfold line_fields.
  destruct (chomp line) as [|c body] eqn:Hch.
  - destruct Hshape as [-> | [-> H]]; [reflexivity | contradiction].
  - assert (exists tail, line = (c :: body) ++ tail /\ (tail = [LF] \/ tail = []))
      as (tail & -> & Htail).
    { destruct Hshape as [-> | [-> _]]; [exists [LF] | exists []];
        rewrite ?app_nil_r; auto. }
    etransitivity;
      [|exact (feed_unquoted (c :: body) tail Hbody Htail true [] [] Hq (fun _ => eq_refl))].
    apply Forall_cons in Hbody. destruct Hbody as [[Hlf Hcr] _].
    cbn [app feed_line_nolimit]. unfold parse_process_char_nolimit, parse_reset. cbn [state].
    assert (is_newline c = false) as ->
      by (unfold is_newline; apply orb_false_iff; split; apply Z.eqb_neq; assumption).
    reflexivity.
Qed.

Lemma reader_unquoted_lines (lines : list text) :
  Forall (fun line => (line = chomp line ++ [LF] \/ (line = chomp line /\ line <> [])) /\
                      Forall (fun c => c <> LF /\ c <> CR) (chomp line)) lines ->
  Forall (fun line => no_opening_quote true (chomp line)) lines ->
  reader_rows_nolimit parse_reset lines = Ok (map line_fields lines).
Proof.
  induction 1 as [|line lines [Hshape Hbody] Hlines IH]; intros Hq; [reflexivity|].
  apply Forall_cons in Hq. destruct Hq as [Hq Hqs].
  cbn [reader_rows_nolimit map]. rewrite (feed_unquoted_line line Hshape Hbody Hq).
  cbn [rbind state is_START_RECORD fields]. rewrite (IH Hqs). reflexivity.
Qed.

(** X12.  When no field of the file starts with a double quote, the
    tokenizer is [split(',')] line by line: if no part between commas is
    longer than the field limit (131072 characters), every line that is
    not blank gives the record of its parts between commas, a double quote
    that is not at the start of a field being a character like any other,
    and a blank line gives the empty record; if a part is longer than the
    limit, the tokenizer raises csv.Error. *)
Theorem unquoted_lines_split (data : text) :
  Forall (fun line => no_opening_quote true (chomp line))
         (text_lines (universal_newlines data)) ->
  (Forall (Forall within_limit) (map line_fields (text_lines (universal_newlines data))) ->
   reader_rows parse_reset (text_lines (universal_newlines data)) =
   Ok (map line_fields (text_lines (universal_newlines data)))) /\
  (Exists (Exists over_limit) (map line_fields (text_lines (universal_newlines data))) ->
   reader_rows parse_reset (text_lines (universal_newlines data)) =
   Raise (csv_Error field_limit_error)).
Proof.
  intros Hq.
  assert (reader_rows_nolimit parse_reset (text_lines (universal_newlines data)) =
          Ok (map line_fields (text_lines (universal_newlines data)))) as Hrows.
  { apply reader_unquoted_lines; [|exact Hq].
    apply text_lines_shape. apply universal_newlines_no_CR. }
  split; intros H.
  - apply reader_rows_of_nolimit; assumption.
  - eapply reader_rows_over_limit; eassumption.
Qed.

Lemma unquoted_lines_split_witness :
  Forall (fun line => no_opening_quote true (chomp line))
         (text_lines (universal_newlines inner_quotes_csv)) /\
  (Forall (Forall within_limit)
          (map line_fields (text_lines (universal_newlines inner_quotes_csv))) ->
   reader_rows parse_reset (text_lines (universal_newlines inner_quotes_csv)) =
   Ok (map line_fields (text_lines (universal_newlines inner_quotes_csv)))) /\
  (Exists (Exists over_limit)
          (map line_fields (text_lines (universal_newlines inner_quotes_csv))) ->
   reader_rows parse_reset (text_lines (universal_newlines inner_quotes_csv)) =
   Raise (csv_Error field_limit_error)).
Proof.
  assert (Forall (fun line => no_opening_quote true (chomp line))
                 (text_lines (universal_newlines inner_quotes_csv))) as H.
  { vm_compute.
    repeat (apply Forall_cons_2; [repeat split; intros; congruence|]).
    apply Forall_nil_2. }
  split; [exact H|]. exact (unquoted_lines_split inner_quotes_csv H).
Defined.

(** The records of the example: the double quotes of the second line are
    kept, the blank line gives the empty record. *)
Example inner_quotes_records :
  map line_fields (text_lines (universal_newlines inner_quotes_csv)) =
  [[str "a"; str "b"]; [txt "x'y'z"; str "2"]; []; [[]; []; []]].
Proof. vm_compute. reflexivity. Qed.

(** ** The field limit of the reader *)

(** X13.  On the text of a file the csv reader has one error only: it
    returns records, every field of which has at most 131072 characters,
    or it raises csv.Error for a field larger than the field limit.  It
    returns records for every file of at most 131072 characters. *)
Theorem field_limit_only (data : text) :
  ((exists rows,
      reader_rows parse_reset (text_lines (universal_newlines data)) = Ok rows /\
      Forall (Forall within_limit) rows) \/
   reader_rows parse_reset (text_lines (universal_newlines data)) =
     Raise (csv_Error field_limit_error)) /\
  (Z.of_nat (length data) <= field_limit ->
   exists rows, reader_rows parse_reset (text_lines (universal_newlines data)) = Ok rows).
Proof.
  split; [|apply reader_short_file].
  destruct (reader_result data) as [[rows Hrows] | Hraise]; [left | right; exact Hraise].
  exists rows. split; [exact Hrows|]. eapply reader_rows_fields_within. exact Hrows.
Qed.

(** X14.  A csv.Error of the reader is caught by neither handler: the
    input is closed, the run ends in the traceback of the error (status
    1), prints nothing, never opens the output and changes no file. *)
Theorem csv_error_not_handled (prog input_csv output_json : text) (w : world)
        (wi : bool) (data msg : text) :
  fs w !! input_csv = Some (Regular true wi data) ->
  reader_rows parse_reset (text_lines (universal_newlines data)) = Raise (csv_Error msg) ->
  fst (run [prog; input_csv; output_json] w) = Traceback (csv_Error msg) /\
  exit_status (fst (run [prog; input_csv; output_json] w)) = 1 /\
  events (snd (run [prog; input_csv; output_json] w)) =
    events w ++ [EOpen input_csv R; EClose input_csv] /\
  stdout (snd (run [prog; input_csv; output_json] w)) = stdout w /\
  fs (snd (run [prog; input_csv; output_json] w)) = fs w.
Proof.
  intros Hi Hraise. rewrite (run_reader_error prog input_csv output_json w wi data msg Hi Hraise).
  cbn [fst snd exit_status after_ops events stdout fs]. rewrite app_nil_r.
  split_and!; reflexivity.
Qed.

Lemma csv_error_not_handled_witness :
  fs long_header_world !! str "in.csv" = Some (Regular true true long_header_csv) /\
  reader_rows parse_reset (text_lines (universal_newlines long_header_csv)) =
    Raise (csv_Error field_limit_error) /\
  fst (run argv0 long_header_world) = Traceback (csv_Error field_limit_error) /\
  exit_status (fst (run argv0 long_header_world)) = 1 /\
  events (snd (run argv0 long_header_world)) =
    events long_header_world ++ [EOpen (str "in.csv") R; EClose (str "in.csv")] /\
  stdout (snd (run argv0 long_header_world)) = stdout long_header_world /\
  fs (snd (run argv0 long_header_world)) = fs long_header_world.
Proof.
  assert (fs long_header_world !! str "in.csv" = Some (Regular true true long_header_csv))
    as Hi by reflexivity.
  split; [exact Hi|]. split; [exact long_header_raises|].
  exact (csv_error_not_handled (str "csv_to_json.py") (str "in.csv") (str "out.json")
           long_header_world true long_header_csv field_limit_error Hi long_header_raises).
Defined.
